(** * PPO with bounded actions for the cylinder2D flow-control example

    A shallow embedding of [examples/cylinder2D_openfoam_Re100/cleanrl_ppo_bounded.py]:
    the bounded-action policy ([Agent]), the sub-cycled action interpolation,
    the advantage/return recursion and the pieces of the PPO update the
    specification talks about.

    Number model.  The script computes on [float32] tensors, with Python
    floats (binary64) as scalars.  Two readings of the arithmetic are
    kept apart:

    - the exact reading, where a tensor entry is a real number and
      rounding, overflow and NaN are left out.  Statements about control
      flow, about which values are read, and about order relations that
      rounding preserves are made in it; a tensor of shape [(n,)] is a
      [list R], a tensor of shape [(m, n)] a list of rows;
    - the float32 reading ([Float32], [Subcycle32], [Returns32]), where
      every operation rounds to nearest-even as IEEE 754 binary32 does.
      Statements about exact values are made in it. *)

From Stdlib Require Import Reals Lra Lia ZArith.
From Stdlib Require Import Floats.SpecFloat.
From stdpp Require Import base option list.

Open Scope R_scope.

(** ** Elementwise tensor operations *)

Module Tensor.

Abbreviation vec := (list R).

Definition vadd (u v : vec) : vec := zip_with Rplus u v.
Definition vsub (u v : vec) : vec := zip_with Rminus u v.
Definition vmul (u v : vec) : vec := zip_with Rmult u v.
Definition vdiv (u v : vec) : vec := zip_with Rdiv u v.
(** a Python scalar times a tensor *)
Definition vscale (c : R) (v : vec) : vec := Rmult c <$> v.
(** [tensor.sum()] along the only axis *)
Definition vsum (v : vec) : R := foldr Rplus 0 v.
(** [tensor.mean()] *)
Definition vmean (v : vec) : R := vsum v / INR (length v).

(** Total lookup [l !!! i] reads 0 outside the list. *)
#[global] Instance R_inhabited : Inhabited R := populate 0.

(** [torch.clip(x, lo, hi)] = [min(max(x, lo), hi)] *)
Definition clip (x lo hi : R) : R := Rmin (Rmax x lo) hi.

End Tensor.
Import Tensor.

(** ** Module constants (lines 26-27) *)

Definition EPSILON : R := / 1000000.
Definition LOG_EPSILON : R := ln EPSILON.

(** ** Hyperbolic functions

    [tanh] is the Standard Library's; [torch.atanh] is its inverse on
    (-1, 1), 1/2 * ln((1+x)/(1-x)). *)

Definition atanh (x : R) : R := / 2 * ln ((1 + x) / (1 - x)).

(** ** [torch.distributions.Normal], per element *)

Module Normal.

Definition log_prob (loc scale x : R) : R :=
  - ((x - loc) ^ 2) / (2 * scale ^ 2) - ln scale - ln (sqrt (2 * PI)).

Definition entropy (scale : R) : R := 0.5 + 0.5 * ln (2 * PI) + ln scale.

(** [rsample()]: the reparametrised draw [loc + eps * scale], where [eps]
    is the standard-normal draw of the call. *)
Definition rsample (loc scale eps : R) : R := loc + eps * scale.

End Normal.

(** ** The bounded-action policy (class [Agent], lines 36-187) *)

Module Agent.

Abbreviation mat := (list (list R)).

(** [torch.mm] of a single row with a matrix of [n] columns. *)
Definition vecmat (n : nat) (v : vec) (M : mat) : vec :=
  foldr (fun cr acc => vadd (vscale cr.1 cr.2) acc) (replicate n 0) (zip v M).

(** The exploration parameters: [self.std] exists only without gSDE,
    [self.log_std] and the exploration matrices only with it. *)
Inductive exploration :=
| FixedStd (std : vec)
| StateDependent (log_std : mat) (exploration_mat : mat)
                 (exploration_matrices : list mat).

Record t := mk {
  n_actions : nat;
  action_min : vec;
  action_max : vec;
  action_scale : vec;
  action_bias : vec;
  noise : exploration
}.

Definition use_sde (a : t) : bool :=
  match noise a with FixedStd _ => false | StateDependent _ _ _ => true end.

Definition latent_dim : nat := 64.

(** Lines 95 / 130 / 160: [torch.clip(std, LOG_EPSILON, -LOG_EPSILON)]. *)
Definition clip_std (s : R) : R := clip s LOG_EPSILON (- LOG_EPSILON).

(** Lines 97 / 132 / 162: the soft-plus transformation. *)
Definition softplus_std (s : R) : R :=
  0.25 * (ln (1 + exp s) + 0.2) / (ln 2 + 0.2).

(** The scale handed to [Normal] without gSDE (lines 158-162): the
    parameter itself is clipped, then transformed. *)
Definition fixed_std (p : R) : R := softplus_std (clip_std p).

(** The scale of the largest parameter the clip lets through. *)
Definition std_upper : R := softplus_std (- LOG_EPSILON).

(** The standard deviation of the gSDE weights (lines 93-97, 128-132):
    [exp(log_std)] is clipped, then transformed. *)
Definition sde_std (ls : R) : R := softplus_std (clip_std (exp ls)).

(** [sample_weights] (lines 86-112).  [eps] and [epss] are the standard
    normal draws behind the two [rsample] calls; [epss] has one matrix
    per environment.  Without gSDE there is no [self.log_std] and the
    call raises ([None]). *)
Definition sample_weights (a : t) (eps : mat) (epss : list mat) : option t :=
  match noise a with
  | FixedStd _ => None
  | StateDependent log_std _ _ =>
      let std := (fun row : vec => sde_std <$> row) <$> log_std in
      let draw (e : mat) : mat :=
        zip_with (zip_with (fun s x => Normal.rsample 0 s x)) std e in
      Some (mk (n_actions a) (action_min a) (action_max a)
               (action_scale a) (action_bias a)
               (StateDependent log_std (draw eps) (draw <$> epss)))
  end.

(** [__init__] (lines 37-84).  [low] and [high] are the bounds of
    [single_action_space].  The scale and the bias are computed from the
    bounds as given; with [relative_action] the stored bounds are then
    divided by 3. *)
Definition init (low high : vec) (relative_action sde : bool)
           (eps : mat) (epss : list mat) : option t :=
  let n := length low in
  let action_min0 := low in
  let action_max0 := high in
  let scale := (fun x => x / 2) <$> vsub action_max0 action_min0 in
  let bias := (fun x => x / 2) <$> vadd action_max0 action_min0 in
  let action_min1 :=
    if relative_action then (fun x => x / 3) <$> action_min0 else action_min0 in
  let action_max1 :=
    if relative_action then (fun x => x / 3) <$> action_max0 else action_max0 in
  if sde then
    let log_std := replicate latent_dim (replicate n (1 * 0)) in
    sample_weights
      (mk n action_min1 action_max1 scale bias (StateDependent log_std [] []))
      eps epss
  else
    Some (mk n action_min1 action_max1 scale bias (FixedStd (replicate n 0))).

(** Lines 167-168: squash the raw sample and scale it to the bounds. *)
Definition scaled_action (a : t) (sample : vec) : vec :=
  let squashed_sample := tanh <$> sample in
  vadd (vmul squashed_sample (action_scale a)) (action_bias a).

(** Lines 171-173: back to [-1, 1] and clip. *)
Definition squashed_action (a : t) (action : vec) : vec :=
  let sq :=
    (fun x => x - 1)
      <$> vdiv (vscale 2 (vsub action (action_min a)))
               (vsub (action_max a) (action_min a)) in
  let clip_ := 1 - EPSILON in
  (fun x => clip x (- clip_) clip_) <$> sq.

(** Line 175. *)
Definition gaussian_action (a : t) (action : vec) : vec :=
  atanh <$> squashed_action a action.

(** Lines 167-175 on the sampling path ([action is None]): the
    pre-squash value recovered from the action just built. *)
Definition round_trip (a : t) (sample : vec) : vec :=
  gaussian_action a (scaled_action a sample).

(** "Within the clamp tolerance": the [tanh] of the recovered value [g]
    differs from the [tanh] of the raw sample [s] by at most [EPSILON]. *)
Definition within_tolerance (s g : R) : Prop := Rabs (tanh g - tanh s) <= EPSILON.

(** Lines 177-179 for one row: the base log-density at the pre-squash
    value minus the log-determinant of the tanh Jacobian. *)
Definition log_prob (mean scale g : vec) : vec :=
  zip_with Rminus
    (zip_with (fun ms x => Normal.log_prob ms.1 ms.2 x) (zip mean scale) g)
    ((fun x => 2 * (ln 2 - x - ln (1 + exp (- 2 * x)))) <$> g).

Section Networks.

(** The torch modules, one observation row at a time. *)
Variable actor : vec -> vec.
Variable actor_mean : vec -> vec.
Variable critic : vec -> R.

(** [get_value] (lines 114-116). *)
Definition get_value (x : list vec) : vec := critic <$> x.

(** Lines 123-164: per row of the batch, the mean, the scale of
    [probs] and the raw sample.  [eps] holds the draws of
    [probs.rsample()], used without gSDE only. *)
Definition distribution (a : t) (x : list vec) (eps : list vec)
  : list (vec * vec * vec) :=
  let latent_pi := actor <$> x in
  let mean := actor_mean <$> latent_pi in
  match noise a with
  | StateDependent log_std exploration_mat exploration_matrices =>
      let latent_sde := latent_pi in
      let std := (fun row : vec => sde_std <$> row) <$> log_std in
      let sq (v : vec) := (fun y => y ^ 2) <$> v in
      let variance := (fun l => vecmat (n_actions a) (sq l) (sq <$> std)) <$> latent_sde in
      let scale := (fun row : vec => (fun v => sqrt (v + EPSILON)) <$> row) <$> variance in
      let noise_ :=
        if bool_decide (length latent_sde = 1%nat
                        \/ length latent_sde <> length exploration_matrices)
        then (fun l => vecmat (n_actions a) l exploration_mat) <$> latent_sde
        else zip_with (vecmat (n_actions a)) latent_sde exploration_matrices in
      let sample := zip_with vadd mean noise_ in
      zip (zip mean scale) sample
  | FixedStd std_param =>
      let std := fixed_std <$> std_param in
      let sample :=
        zip_with (fun m e => zip_with (fun ms x => Normal.rsample ms.1 ms.2 x) (zip m std) e)
                 mean eps in
      zip (zip mean ((fun _ => std) <$> mean)) sample
  end.

(** [get_action_and_value] (lines 118-187).  [action = None] is the
    sampling call, [Some acts] the evaluation of stored actions.  The
    result is [(action, mean, log_prob.sum(1), entropy, critic(x))]. *)
Definition get_action_and_value (a : t) (x : list vec)
           (action : option (list vec)) (eps : list vec)
  : list vec * list vec * vec * option vec * vec :=
  let d := distribution a x eps in
  let mean := (fun r => r.1.1) <$> d in
  let scale := (fun r => r.1.2) <$> d in
  let sample := (fun r => r.2) <$> d in
  let action' :=
    match action with
    | None => scaled_action a <$> sample
    | Some acts => acts
    end in
  let g := gaussian_action a <$> action' in
  let lp := zip_with (fun ms gr => log_prob ms.1 ms.2 gr) (zip mean scale) g in
  let entropy :=
    if use_sde a then None
    else Some ((fun s => vsum (Normal.entropy <$> s)) <$> scale) in
  (action', mean, vsum <$> lp, entropy, critic <$> x).

End Networks.

End Agent.

(** ** Sub-cycled action interpolation (lines 694-729)

    One policy decision (a macro-step) is delivered to the solver in
    [subcycle_max] substeps.  An action tensor of shape
    [(num_envs, n_actions)] is kept flat: every operation of the loop is
    elementwise. *)

Module Subcycle.

Definition subcycle_max : nat := 50.

(** Lines 703-710: the action of one substep. *)
Definition smoothed_action (use_relative_action : bool) (subcycle_counter : nat)
           (prev_action action : vec) : vec :=
  if use_relative_action then
    let action_fraction := 1 / INR subcycle_max in
    vadd prev_action (vscale action_fraction action)
  else
    let action_fraction := 1 / INR (subcycle_max - subcycle_counter) in
    vadd prev_action (vscale action_fraction (vsub action prev_action)).

(** The closed form of the standard-mode ramp: at the 0-indexed substep
    [k] the action [p + ((k + 1) / subcycle_max) * (a - p)]. *)
Definition ramp (k : nat) (p a : vec) : vec :=
  vadd p (vscale (INR (k + 1) / INR subcycle_max) (vsub a p)).

(** Lines 694-695. *)
Definition init_prev_action (prev_action : option vec) (action : vec) : vec :=
  match prev_action with
  | None => vscale 0 action
  | Some p => p
  end.

Section Env.

(** The vectorised environment: its state, and [envs.step].  [done]
    holds one flag per parallel environment (for a single environment
    line 718 wraps the flag into a list again). *)
Variable Env : Type.
Variable Obs : Type.

Record step_out := StepOut {
  next_obs : Obs;
  reward : vec;
  done : list bool
}.

Variable env_step : Env -> vec -> Env * step_out.
Variable use_relative_action : bool.

(** What the loop leaves behind.  [calls] is the history of the
    [envs.step] calls of this macro-step, oldest first: the action
    applied and what the environment answered. *)
Record result := Result {
  env : Env;
  prev_action : option vec;
  subcycle_counter : nat;
  calls : list (vec * step_out)
}.

(** The [while subcycle_counter < subcycle_max] loop (lines 702-725);
    [fuel] is [subcycle_max - subcycle_counter].  [done[0]] raises on
    an empty list ([None]). *)
Fixpoint subcycle_loop (fuel : nat) (counter : nat) (e : Env)
         (prev action : vec) (hist : list (vec * step_out)) : option result :=
  match fuel with
  | O => Some (Result e (Some prev) counter hist)
  | S fuel' =>
      let smoothed := smoothed_action use_relative_action counter prev action in
      let '(e', out) := env_step e smoothed in
      let counter' := S counter in
      let hist' := hist ++ [(smoothed, out)] in
      match done out !! 0%nat with
      | None => None
      | Some true => Some (Result e' None counter' hist')
      | Some false => subcycle_loop fuel' counter' e' smoothed action hist'
      end
  end.

(** One macro-step with the action the agent returned (lines 694-725). *)
Definition macro_step (e : Env) (prev_action : option vec) (action : vec)
  : option result :=
  subcycle_loop subcycle_max 0 e (init_prev_action prev_action action) action [].

(** The same substeps with the done flags ignored: what [n] steps of
    the loop apply and observe when nothing stops it. *)
Fixpoint uninterrupted (n : nat) (counter : nat) (e : Env) (prev action : vec)
  : list (vec * step_out) :=
  match n with
  | O => []
  | S n' =>
      let smoothed := smoothed_action use_relative_action counter prev action in
      let '(e', out) := env_step e smoothed in
      (smoothed, out) :: uninterrupted n' (S counter) e' smoothed action
  end.

(** [done[0]] of a recorded call. *)
Definition done0 (call : vec * step_out) : option bool := done call.2 !! 0%nat.

End Env.

Arguments StepOut {Obs}.
Arguments next_obs {Obs}.
Arguments reward {Obs}.
Arguments done {Obs}.
Arguments done0 {Obs}.
Arguments Result {Env Obs}.
Arguments env {Env Obs}.
Arguments prev_action {Env Obs}.
Arguments subcycle_counter {Env Obs}.
Arguments calls {Env Obs}.
Arguments subcycle_loop {Env Obs}.
Arguments macro_step {Env Obs}.
Arguments uninterrupted {Env Obs}.

(** Environments of the example scenarios.  The observation is empty
    and the reward zero: the loop does not read them. *)
Module Scenario.

(** One environment that never reports termination. *)
Definition quiet (e : unit) (a : vec) : unit * step_out unit :=
  (tt, StepOut tt [0] [false]).

(** One environment, its state the number of steps taken so far, that
    raises the done flag at its tenth step. *)
Definition done_at_tenth (e : nat) (a : vec) : nat * step_out unit :=
  (S e, StepOut tt [0] [(e =? 9)%nat]).

(** Two environments: the one at index 1 reports termination at every
    step, the one at index 0 never. *)
Definition other_done (e : unit) (a : vec) : unit * step_out unit :=
  (tt, StepOut tt [0; 0] [false; true]).

End Scenario.

End Subcycle.

(** ** Advantages and returns (lines 732-758)

    Every operation of this block acts elementwise along the environment
    axis, so the model follows one environment: [rewards], [values] and
    [dones] are that environment's columns of the rollout buffer (one
    entry per step), [next_obs] and [next_done] its entries of the
    tensors held outside the buffer.  An index outside a buffer raises
    ([None]). *)

Module Returns.

Section Bootstrap.

Variable Obs : Type.
(** [agent.get_value], the critic, on one observation. *)
Variable critic : Obs -> R.

Variable num_steps : nat.
Variable gamma : R.
Variable gae_lambda : R.

Variable rewards values dones : list R.
Variable next_obs : Obs.
Variable next_done : R.

(** Line 734. *)
Definition next_value : R := critic next_obs.

(** Lines 739-744 (and 751-755 with [source] the returns written so
    far): the non-terminal mask and the value that follows step [t]. *)
Definition next_of (source : list R) (t : nat) : option (R * R) :=
  if bool_decide (t = (num_steps - 1)%nat) then
    Some (1 - next_done, next_value)
  else
    d ← dones !! (t + 1)%nat;
    v ← source !! (t + 1)%nat;
    Some (1 - d, v).

(** The same two quantities read with the total lookup, for the
    statements about indices inside the buffers. *)
Definition nextnonterminal (t : nat) : R :=
  if bool_decide (t = (num_steps - 1)%nat) then 1 - next_done
  else 1 - dones !!! (t + 1)%nat.
Definition nextvalues (source : list R) (t : nat) : R :=
  if bool_decide (t = (num_steps - 1)%nat) then next_value
  else source !!! (t + 1)%nat.

(** Line 745 in the same reading: the TD residual of step [t]. *)
Definition td_residual (t : nat) : R :=
  rewards !!! t + gamma * nextvalues values t * nextnonterminal t - values !!! t.

(** Lines 739-746: the body of the GAE loop on the pair
    [(advantages, lastgaelam)]. *)
Definition gae_body (t : nat) (st : list R * R) : option (list R * R) :=
  let '(advantages, lastgaelam) := st in
  '(nextnonterminal, nextvalues) ← next_of values t;
  r ← rewards !! t;
  v ← values !! t;
  let delta := r + gamma * nextvalues * nextnonterminal - v in
  let lastgaelam' := delta + gamma * gae_lambda * nextnonterminal * lastgaelam in
  Some (<[t := lastgaelam']> advantages, lastgaelam').

(** Lines 751-757: the body of the loop without GAE. *)
Definition return_body (t : nat) (returns : list R) : option (list R) :=
  '(nextnonterminal, next_return) ← next_of returns t;
  r ← rewards !! t;
  Some (<[t := r + gamma * nextnonterminal * next_return]> returns).

(** [for t in reversed(range(n))]: [t] runs from [n - 1] down to 0. *)
Fixpoint reversed_range {S : Type} (body : nat -> S -> option S)
         (n : nat) (st : S) : option S :=
  match n with
  | O => Some st
  | Datatypes.S t => st' ← body t st; reversed_range body t st'
  end.

Definition zeros_like (l : list R) : list R := (fun _ => 0) <$> l.

(** Lines 735-758: [(advantages, returns)]. *)
Definition advantages_and_returns (gae : bool) : option (list R * list R) :=
  if gae then
    '(advantages, _) ← reversed_range gae_body num_steps (zeros_like rewards, 0);
    Some (advantages, zip_with Rplus advantages values)
  else
    returns ← reversed_range return_body num_steps (zeros_like rewards);
    Some (zip_with Rminus returns values, returns).

End Bootstrap.

Arguments next_value {Obs}.
Arguments next_of {Obs}.
Arguments nextvalues {Obs}.
Arguments td_residual {Obs}.
Arguments gae_body {Obs}.
Arguments return_body {Obs}.
Arguments advantages_and_returns {Obs}.

(** Discounted Monte-Carlo return of step [t], written as the sum it
    stands for: the rewards from [t] to the end of the rollout, the one
    [i] steps ahead discounted by [gamma ^ i] and masked by the
    non-terminal indicators of the trajectory boundaries crossed on the
    way. *)
Definition mask (dones : list R) (t i : nat) : R :=
  foldr Rmult 1 ((fun j => 1 - dones !!! (t + j + 1)%nat) <$> seq 0 i).

Definition monte_carlo_return (gamma : R) (num_steps : nat)
           (rewards dones : list R) (t : nat) : R :=
  foldr Rplus 0
    ((fun i => gamma ^ i * mask dones t i * rewards !!! (t + i)%nat)
       <$> seq 0 (num_steps - t)).

End Returns.

(** ** The PPO update (lines 774-847) *)

Module Update.

(** [torch.clamp] is [torch.clip]. *)
Definition clamp (x lo hi : R) : R := clip x lo hi.

(** Lines 791-792. *)
Definition logratio (newlogprob b_logprobs : vec) : vec := vsub newlogprob b_logprobs.
Definition ratio (newlogprob b_logprobs : vec) : vec :=
  exp <$> logratio newlogprob b_logprobs.

(** Lines 796-797. *)
Definition old_approx_kl (newlogprob b_logprobs : vec) : R :=
  vmean (Ropp <$> logratio newlogprob b_logprobs).
Definition approx_kl (newlogprob b_logprobs : vec) : R :=
  vmean (vsub ((fun r => r - 1) <$> ratio newlogprob b_logprobs)
              (logratio newlogprob b_logprobs)).

(** Lines 805-807, on the advantages of the minibatch as they stand
    after line 802. *)
Definition pg_loss (clip_coef : R) (mb_advantages ratio_ : vec) : R :=
  let pg_loss1 := vmul (Ropp <$> mb_advantages) ratio_ in
  let pg_loss2 :=
    vmul (Ropp <$> mb_advantages)
         ((fun r => clamp r (1 - clip_coef) (1 + clip_coef)) <$> ratio_) in
  vmean (zip_with Rmax pg_loss1 pg_loss2).

(** Lines 812-819: the value loss with clipping, per element of the
    minibatch. *)
Definition v_loss_unclipped (newvalue returns : vec) : vec :=
  (fun d => d ^ 2) <$> vsub newvalue returns.
Definition v_clipped (clip_coef : R) (newvalue b_values : vec) : vec :=
  vadd b_values ((fun d => clamp d (- clip_coef) clip_coef) <$> vsub newvalue b_values).
Definition v_loss_clipped (clip_coef : R) (newvalue b_values returns : vec) : vec :=
  (fun d => d ^ 2) <$> vsub (v_clipped clip_coef newvalue b_values) returns.
Definition v_loss_max (clip_coef : R) (newvalue b_values returns : vec) : vec :=
  zip_with Rmax (v_loss_unclipped newvalue returns)
                (v_loss_clipped clip_coef newvalue b_values returns).

(** Lines 811-822. *)
Definition v_loss (clip_vloss : bool) (clip_coef : R)
           (newvalue b_values returns : vec) : R :=
  if clip_vloss then 0.5 * vmean (v_loss_max clip_coef newvalue b_values returns)
  else 0.5 * vmean (v_loss_unclipped newvalue returns).

(** Lines 825-829. *)
Definition entropy_loss (entropy : option vec) (newlogprob : vec) : R :=
  match entropy with
  | None => - vmean (Ropp <$> newlogprob)
  | Some e => - vmean e
  end.

(** Line 831. *)
Definition loss (ent_coef vf_coef pg_loss_ entropy_loss_ v_loss_ : R) : R :=
  pg_loss_ + ent_coef * entropy_loss_ + vf_coef * v_loss_.

Section Epochs.

(** Everything the optimisation changes (network parameters, optimiser
    moments, the shuffled indices) is [Params].  [forward p epoch start]
    is the evaluation of the minibatch that starts at [start]: the new
    log-probabilities and the stored ones.  [optimizer_step] is lines
    839-842. *)
Variable Params : Type.
Variable forward : Params -> nat -> nat -> vec * vec.
Variable optimizer_step : Params -> nat -> nat -> Params.

Variable update_epochs : nat.
Variable batch_size : nat.
Variable minibatch_size : nat.
Variable target_kl : option R.

(** [range(0, batch_size, minibatch_size)]; a zero step raises. *)
Definition minibatch_starts : option (list nat) :=
  if bool_decide (minibatch_size = 0%nat) then None
  else Some ((fun i => (i * minibatch_size)%nat)
               <$> seq 0 ((batch_size + minibatch_size - 1) / minibatch_size)).

(** Lines 779-842: one pass over the minibatches.  The second
    component is the variable [approx_kl], unbound ([None]) until a
    minibatch has run. *)
Definition minibatches (epoch : nat) (starts : list nat)
           (st : Params * option R) : Params * option R :=
  foldl (fun st start =>
           let '(newlogprob, b_logprobs) := forward st.1 epoch start in
           (optimizer_step st.1 epoch start, Some (approx_kl newlogprob b_logprobs)))
        st starts.

(** What the epoch loop leaves: the parameters and, for the
    statements, the value of [approx_kl] at the end of each epoch that
    ran. *)
Record result := Result {
  params : Params;
  kl_trace : list (option R)
}.

(** Lines 777-847; [remaining] is [update_epochs - epoch].  [None] is
    an exception: the zero step, or the test of an unbound
    [approx_kl]. *)
Fixpoint epoch_loop (remaining epoch : nat) (p : Params) (kl : option R)
         (trace : list (option R)) : option result :=
  match remaining with
  | O => Some (Result p trace)
  | S remaining' =>
      starts ← minibatch_starts;
      let '(p', kl') := minibatches epoch starts (p, kl) in
      let trace' := trace ++ [kl'] in
      match target_kl with
      | Some target =>
          a ← kl';
          if Rgt_dec a target then Some (Result p' trace')
          else epoch_loop remaining' (S epoch) p' kl' trace'
      | None => epoch_loop remaining' (S epoch) p' kl' trace'
      end
  end.

Definition run_epochs (p : Params) : option result :=
  epoch_loop update_epochs 0 p None [].

Definition epochs_run (r : result) : nat := length (kl_trace r).

End Epochs.

Arguments minibatches {Params}.
Arguments Result {Params}.
Arguments params {Params}.
Arguments kl_trace {Params}.
Arguments epoch_loop {Params}.
Arguments run_epochs {Params}.
Arguments epochs_run {Params}.

End Update.

(** ** IEEE 754 arithmetic

    Binary floating-point numbers are the Standard Library's
    [spec_float], their operations its correctly rounded ones
    (round to nearest, ties to even). *)

(** Python's [float], binary64. *)
Module Float64.

Definition prec : Z := 53%Z.
Definition emax : Z := 1024%Z.

(** An integer of at most 53 bits, as Python converts it. *)
Definition of_Z (n : Z) : spec_float := binary_normalize prec emax n 0%Z false.
Definition of_nat (n : nat) : spec_float := of_Z (Z.of_nat n).

Definition mul : spec_float -> spec_float -> spec_float := SFmul prec emax.
Definition div : spec_float -> spec_float -> spec_float := SFdiv prec emax.

(** The decimal literal [n / d] for integers of at most 53 bits, such
    as [0.99 = 99 / 100]: the nearest binary64 number. *)
Definition literal (n d : Z) : spec_float := div (of_Z n) (of_Z d).

End Float64.

(** [torch.float32], binary32. *)
Module Float32.

Definition prec : Z := 24%Z.
Definition emax : Z := 128%Z.

Abbreviation vec32 := (list spec_float).

Definition zero : spec_float := S754_zero false.
Definition one : spec_float := S754_finite false 8388608 (-23).

(** Total lookup [l !!! i] reads 0 outside the list. *)
#[global] Instance float_inhabited : Inhabited spec_float := populate zero.

Definition add : spec_float -> spec_float -> spec_float := SFadd prec emax.
Definition sub : spec_float -> spec_float -> spec_float := SFsub prec emax.
Definition mul : spec_float -> spec_float -> spec_float := SFmul prec emax.

(** A Python scalar that meets a float32 tensor is first rounded to
    float32. *)
Definition of_float64 (x : spec_float) : spec_float :=
  match x with
  | S754_finite s m e => binary_round prec emax s m e
  | _ => x
  end.

(** The float32 number nearest to the decimal literal [n / d]. *)
Definition literal (n d : Z) : spec_float := of_float64 (Float64.literal n d).

Definition vadd (u v : vec32) : vec32 := zip_with add u v.
Definition vsub (u v : vec32) : vec32 := zip_with sub u v.
(** a Python scalar, already rounded, times a tensor *)
Definition vscale (c : spec_float) (v : vec32) : vec32 := mul c <$> v.

End Float32.

(** ** Sub-cycled action interpolation on float32 tensors
    (lines 694-725) *)

Module Subcycle32.

Import Float32.

(** Lines 706 and 709: [1 / subcycle_max] and
    [1 / (subcycle_max - subcycle_counter)] are divisions of Python
    integers, binary64 numbers, rounded to float32 when they multiply
    the tensor.  Inside the loop the divisor is never zero. *)
Definition action_fraction (use_relative_action : bool) (subcycle_counter : nat)
  : spec_float :=
  let divisor :=
    if use_relative_action then Subcycle.subcycle_max
    else (Subcycle.subcycle_max - subcycle_counter)%nat in
  of_float64 (Float64.div (Float64.of_nat 1) (Float64.of_nat divisor)).

(** Lines 703-710. *)
Definition smoothed_action (use_relative_action : bool) (subcycle_counter : nat)
           (prev_action action : vec32) : vec32 :=
  let action_fraction := action_fraction use_relative_action subcycle_counter in
  if use_relative_action then
    vadd prev_action (vscale action_fraction action)
  else
    vadd prev_action (vscale action_fraction (vsub action prev_action)).

(** Lines 694-695: [0 * action]. *)
Definition init_prev_action (prev_action : option vec32) (action : vec32) : vec32 :=
  match prev_action with
  | None => vscale zero action
  | Some p => p
  end.

(** The actions that [n] substeps apply, from the counter [counter] on,
    when nothing stops the loop: each substep starts from the action
    the one before it applied.  The environment has no part in them. *)
Fixpoint applied (use_relative_action : bool) (n counter : nat)
         (prev action : vec32) : list vec32 :=
  match n with
  | O => []
  | S n' =>
      let smoothed := smoothed_action use_relative_action counter prev action in
      smoothed :: applied use_relative_action n' (S counter) smoothed action
  end.

Section Env.

Variable Env : Type.
Variable Obs : Type.

Record step_out := StepOut {
  next_obs : Obs;
  reward : vec32;
  done : list bool
}.

Variable env_step : Env -> vec32 -> Env * step_out.
Variable use_relative_action : bool.

Record result := Result {
  env : Env;
  prev_action : option vec32;
  subcycle_counter : nat;
  calls : list (vec32 * step_out)
}.

(** The loop of lines 702-725, as [Subcycle.subcycle_loop]. *)
Fixpoint subcycle_loop (fuel : nat) (counter : nat) (e : Env)
         (prev action : vec32) (hist : list (vec32 * step_out)) : option result :=
  match fuel with
  | O => Some (Result e (Some prev) counter hist)
  | S fuel' =>
      let smoothed := smoothed_action use_relative_action counter prev action in
      let '(e', out) := env_step e smoothed in
      let counter' := S counter in
      let hist' := hist ++ [(smoothed, out)] in
      match done out !! 0%nat with
      | None => None
      | Some true => Some (Result e' None counter' hist')
      | Some false => subcycle_loop fuel' counter' e' smoothed action hist'
      end
  end.

Definition macro_step (e : Env) (prev_action : option vec32) (action : vec32)
  : option result :=
  subcycle_loop Subcycle.subcycle_max 0 e (init_prev_action prev_action action) action [].

End Env.

Arguments StepOut {Obs}.
Arguments next_obs {Obs}.
Arguments reward {Obs}.
Arguments done {Obs}.
Arguments Result {Env Obs}.
Arguments env {Env Obs}.
Arguments prev_action {Env Obs}.
Arguments subcycle_counter {Env Obs}.
Arguments calls {Env Obs}.
Arguments subcycle_loop {Env Obs}.
Arguments macro_step {Env Obs}.

(** One environment that never reports termination. *)
Definition quiet (e : unit) (a : vec32) : unit * step_out unit :=
  (tt, StepOut tt [zero] [false]).

(** The float32 numbers nearest to [(k + 1) / 50], for [k] from 0 to 49. *)
Definition fiftieths : list spec_float :=
  (fun k => literal (Z.of_nat k + 1) 50) <$> seq 0 50.

(** [|x - y| <= 2^-22], four units in the last place of a number
    below 1. *)
Definition close (x y : spec_float) : bool :=
  SFleb (SFabs (sub x y)) (S754_finite false 8388608 (-45)).

(** Two tensors of one length, close entry by entry. *)
Definition all_close (u v : vec32) : bool :=
  bool_decide (length u = length v) && forallb (fun xy => close xy.1 xy.2) (zip u v).

End Subcycle32.

(** ** Advantages and returns on float32 tensors (lines 732-758)

    One environment's columns of the buffers, as in [Returns].
    [gamma] and [gae_lambda] are Python floats. *)

Module Returns32.

Import Float32.

Section Bootstrap.

Variable Obs : Type.
Variable critic : Obs -> spec_float.

Variable num_steps : nat.
Variable gamma : spec_float.
Variable gae_lambda : spec_float.

Variable rewards values dones : vec32.
Variable next_obs : Obs.
Variable next_done : spec_float.

(** Lines 739-744 and 751-755. *)
Definition next_of (source : vec32) (t : nat) : option (spec_float * spec_float) :=
  if bool_decide (t = (num_steps - 1)%nat) then
    Some (sub one next_done, critic next_obs)
  else
    d ← dones !! (t + 1)%nat;
    v ← source !! (t + 1)%nat;
    Some (sub one d, v).

(** The same two quantities read with the total lookup, and the TD
    residual of line 745, for the statements about indices inside the
    buffers. *)
Definition nextnonterminal (t : nat) : spec_float :=
  if bool_decide (t = (num_steps - 1)%nat) then sub one next_done
  else sub one (dones !!! (t + 1)%nat).
Definition nextvalues (source : vec32) (t : nat) : spec_float :=
  if bool_decide (t = (num_steps - 1)%nat) then critic next_obs
  else source !!! (t + 1)%nat.
Definition td_residual (t : nat) : spec_float :=
  sub (add (rewards !!! t)
           (mul (mul (of_float64 gamma) (nextvalues values t)) (nextnonterminal t)))
      (values !!! t).

(** Lines 745-746.  The products are taken from the left:
    [args.gamma * nextvalues] rounds [gamma] to float32, and
    [args.gamma * args.gae_lambda] is a product of Python floats,
    rounded to float32 when it meets [nextnonterminal]. *)
Definition gae_body (t : nat) (st : vec32 * spec_float) : option (vec32 * spec_float) :=
  let '(advantages, lastgaelam) := st in
  '(nextnonterminal, nextvalues) ← next_of values t;
  r ← rewards !! t;
  v ← values !! t;
  let delta := sub (add r (mul (mul (of_float64 gamma) nextvalues) nextnonterminal)) v in
  let lastgaelam' :=
    add delta
        (mul (mul (of_float64 (Float64.mul gamma gae_lambda)) nextnonterminal)
             lastgaelam) in
  Some (<[t := lastgaelam']> advantages, lastgaelam').

(** Line 757. *)
Definition return_body (t : nat) (returns : vec32) : option vec32 :=
  '(nextnonterminal, next_return) ← next_of returns t;
  r ← rewards !! t;
  Some (<[t := add r (mul (mul (of_float64 gamma) nextnonterminal) next_return)]> returns).

Definition zeros_like (l : vec32) : vec32 := (fun _ => zero) <$> l.

(** Lines 735-758: [(advantages, returns)].  Tensors of different
    lengths cannot be added or subtracted. *)
Definition advantages_and_returns (gae : bool) : option (vec32 * vec32) :=
  if gae then
    '(advantages, _) ← Returns.reversed_range gae_body num_steps (zeros_like rewards, zero);
    if bool_decide (length advantages = length values)
    then Some (advantages, vadd advantages values) else None
  else
    returns ← Returns.reversed_range return_body num_steps (zeros_like rewards);
    if bool_decide (length returns = length values)
    then Some (vsub returns values, returns) else None.

End Bootstrap.

Arguments next_of {Obs}.
Arguments nextvalues {Obs}.
Arguments td_residual {Obs}.
Arguments gae_body {Obs}.
Arguments return_body {Obs}.
Arguments advantages_and_returns {Obs}.

End Returns32.

(** ** Two environments, one of them terminating

    The environment at index 1 reports termination at its tenth step,
    the one at index 0 never.  The state is the number of steps taken. *)

Module Asynchronous.

Definition other_done_at_tenth (e : nat) (a : vec) : nat * Subcycle.step_out unit :=
  (S e, Subcycle.StepOut tt [0; 0] [false; (e =? 9)%nat]).

End Asynchronous.

(** ** The epochs of an update, unrolled (lines 777-847)

    What the epoch loop does to the parameters and to the variable
    [approx_kl], one epoch at a time, written without the loop. *)

Module Unrolled.

Section Epochs.

Variable Params : Type.
Variable forward : Params -> nat -> nat -> vec * vec.
Variable optimizer_step : Params -> nat -> nat -> Params.

(** The parameters after the minibatches [starts] of [epoch]: one
    optimizer step per minibatch. *)
Definition params_after_epoch (starts : list nat) (epoch : nat) (p : Params) : Params :=
  foldl (fun q start => optimizer_step q epoch start) p starts.

(** [approx_kl] (lines 794-797) after the minibatches of [epoch]: the
    estimate of the last minibatch, computed from the forward pass at
    the parameters the minibatches before it left.  Without a minibatch
    the variable keeps what it held. *)
Definition kl_after_epoch (starts : list nat) (epoch : nat) (p : Params)
           (kl : option R) : option R :=
  match last starts with
  | None => kl
  | Some start =>
      let q := params_after_epoch (removelast starts) epoch p in
      let '(newlogprob, b_logprobs) := forward q epoch start in
      Some (Update.approx_kl newlogprob b_logprobs)
  end.

(** One epoch on the pair of the parameters and [approx_kl]. *)
Definition epoch_step (starts : list nat) (epoch : nat) (st : Params * option R)
  : Params * option R :=
  (params_after_epoch starts epoch st.1, kl_after_epoch starts epoch st.1 st.2).

(** The [n] epochs from [epoch] on. *)
Fixpoint epochs_from (starts : list nat) (n epoch : nat) (st : Params * option R)
  : Params * option R :=
  match n with
  | O => st
  | S n' => epochs_from starts n' (S epoch) (epoch_step starts epoch st)
  end.

(** Parameters and [approx_kl] after the epochs [0 .. n - 1] of an
    update that starts from the parameters [p], [approx_kl] unbound. *)
Definition after_epochs (starts : list nat) (n : nat) (p : Params) : Params * option R :=
  epochs_from starts n 0 (p, None).

End Epochs.

Arguments params_after_epoch {Params}.
Arguments kl_after_epoch {Params}.
Arguments epoch_step {Params}.
Arguments epochs_from {Params}.
Arguments after_epochs {Params}.

End Unrolled.
(** ** Batch bookkeeping of the update (lines 455-456, 760-781) *)

Module Minibatch.

(** [parse_args], lines 455-456: the two derived sizes.  The floor
    division raises for [num_minibatches = 0]. *)
Definition batch_size (num_envs num_steps : nat) : nat := (num_envs * num_steps)%nat.

Definition minibatch_size (batch_size num_minibatches : nat) : option nat :=
  if bool_decide (num_minibatches = 0%nat) then None
  else Some (batch_size / num_minibatches)%nat.

(** Lines 780-781: [mb_inds = b_inds[start:end]] with
    [end = start + minibatch_size]; a slice stops at the end of the
    array. *)
Definition mb_inds (b_inds : list nat) (minibatch_size start : nat) : list nat :=
  take minibatch_size (drop start b_inds).

(** Lines 769-770: the observation that follows each step of the
    rollout, the last step being followed by itself.  [nxtobs] has the
    shape of [obs]; the last row of an empty buffer does not exist and
    the assignment raises. *)
Definition next_observations {A : Type} (obs : list A) : option (list A) :=
  match last obs with
  | None => None
  | Some o => Some (drop 1 obs ++ [o])
  end.

End Minibatch.

(** ** The explained variance (lines 849-851) *)

Module Diagnostics.

(** [np.var]: the mean squared deviation from the mean. *)
Definition var (y : vec) : R := vmean ((fun x => (x - vmean y) ^ 2) <$> y).

(** Lines 850-851; [None] is [np.nan]. *)
Definition explained_var (y_pred y_true : vec) : option R :=
  let var_y := var y_true in
  if Req_dec_T var_y 0 then None
  else Some (1 - var (vsub y_true y_pred) / var_y).

End Diagnostics.

(** ** The gym wrappers of the script (lines 190-390)

    What the wrapped environment answers is an argument of each method:
    the wrappers only post-process it. *)

Module Wrappers.

(** A numpy array of one or two dimensions. *)
Inductive ndarray :=
| Flat (v : vec)
| Rows (rows : list vec).

(** [np.concatenate((a, b), axis)] for [axis] 0 and 1.  Along axis 0
    one-dimensional arrays are appended, two-dimensional ones stacked
    (their rows must have one width); along axis 1 the rows of two
    two-dimensional arrays with the same number of rows are appended
    pairwise.  Everything else raises. *)
Definition same_width (a b : list vec) : bool :=
  match a ++ b with
  | [] => true
  | r :: rs => forallb (fun r' => (length r' =? length r)%nat) rs
  end.

Definition concatenate (axis : nat) (a b : ndarray) : option ndarray :=
  match axis, a, b with
  | O, Flat u, Flat v => Some (Flat (u ++ v))
  | O, Rows u, Rows v => if same_width u v then Some (Rows (u ++ v)) else None
  | S O, Rows u, Rows v =>
      if (length u =? length v)%nat then Some (Rows (zip_with app u v)) else None
  | _, _, _ => None
  end.

(** [np.array(action).reshape(num_envs, -1)] on the flattened action:
    [num_envs] rows of equal width, or an error when the size is not a
    multiple of [num_envs]. *)
Definition reshape_rows (num_envs : nat) (flat : vec) : option (list vec) :=
  if bool_decide (num_envs = 0%nat \/ (length flat mod num_envs)%nat <> 0%nat) then None
  else
    let width := (length flat / num_envs)%nat in
    Some ((fun i => take width (drop (i * width) flat)) <$> seq 0 num_envs).

(** *** [ClipFlowAction.action] (lines 200-207) *)

Definition clip_flow_action (action_min action_max action : vec) : vec :=
  zip_with (fun x b => clip x b.1 b.2) action (zip action_min action_max).

(** *** [ObservationRewardWrapper] (lines 219-242): the observation with
    the action appended *)

Definition augment (num_envs : nat) (observations : ndarray) (action : vec)
  : option ndarray :=
  if bool_decide (1 < num_envs)%nat then
    action_ ← reshape_rows num_envs action;
    concatenate 1 observations (Rows action_)
  else
    concatenate 0 observations (Flat action).

(** The fake action of [reset]: [num_envs] copies of a zeroed sample of
    the action space, of [action_dim] entries each. *)
Definition fake_action (num_envs action_dim : nat) : vec :=
  replicate (num_envs * action_dim) 0.

(** *** [ObservationRewardWrapper2] (lines 248-317): oldest and newest
    observation of a bounded queue *)

(** [deque(maxlen=n).append]: when full, the oldest entry leaves. *)
Definition deque_append {A : Type} (maxlen : nat) (q : list A) (x : A) : list A :=
  drop (length (q ++ [x]) - maxlen) (q ++ [x]).

Record stacker := Stacker {
  use_relative_action : bool;
  stack_envs : nat;
  deque_size : nat;
  obs_queue : list ndarray
}.

(** Lines 276-284 and 300-309. *)
Definition wrapped_observations (w : stacker) (observations : ndarray) (action : vec)
  : option ndarray :=
  if use_relative_action w then augment (stack_envs w) observations action
  else Some observations.

(** Lines 289-292 and 314-317: [obs_queue[0]] next to [obs_queue[-1]]. *)
Definition stacked (w : stacker) : option ndarray :=
  first_ ← head (obs_queue w);
  last_ ← last (obs_queue w);
  concatenate (if bool_decide (1 < stack_envs w)%nat then 1 else 0) first_ last_.

(** [step] (lines 272-292), on the observations the environment
    returned. *)
Definition stacker_step (w : stacker) (observations : ndarray) (action : vec)
  : option (stacker * ndarray) :=
  wrapped ← wrapped_observations w observations action;
  let w' := Stacker (use_relative_action w) (stack_envs w) (deque_size w)
                    (deque_append (deque_size w) (obs_queue w) wrapped) in
  out ← stacked w';
  Some (w', out).

(** [reset] (lines 294-317). *)
Definition stacker_reset (w : stacker) (observations : ndarray) (action_dim : nat)
  : option (stacker * ndarray) :=
  wrapped ← wrapped_observations w observations (fake_action (stack_envs w) action_dim);
  let w' := Stacker (use_relative_action w) (stack_envs w) (deque_size w)
                    (deque_append (deque_size w) [] wrapped) in
  out ← stacked w';
  Some (w', out).

(** Several steps in a row; the outputs are listed oldest first. *)
Fixpoint stacker_steps (w : stacker) (inputs : list (ndarray * vec))
  : option (stacker * list ndarray) :=
  match inputs with
  | [] => Some (w, [])
  | (observations, action) :: rest =>
      '(w', out) ← stacker_step w observations action;
      '(w'', outs) ← stacker_steps w' rest;
      Some (w'', out :: outs)
  end.

End Wrappers.


(** ** [WandBRewardRecoder] (lines 320-390) *)

Module Recorder.

(** [np.int32] arithmetic wraps around. *)
Definition int32 (z : Z) : Z := ((z + 2147483648) mod 4294967296 - 2147483648)%Z.

Section Arithmetic.

(** The running returns are float32 numbers and the rewards what the
    environment hands over.  Their arithmetic is left open: [zero] is
    the number 0, [add a b] is one entry of
    [episode_returns += rewards] and [quotient a n] is
    [episode_return / episode_length], each as numpy computes it. *)
Variable F : Type.
Variable zero : F.
Variable add : F -> F -> F.
Variable Metric : Type.
Variable quotient : F -> Z -> Metric.

Record episode_arrays := EpisodeArrays {
  episode_returns : list F;
  episode_lengths : list Z;
  episode_returns_saved : list F;
  episode_lengths_saved : list Z
}.

(** Before the first [reset] the arrays do not exist ([None]). *)
Record recorder := Recorder {
  num_envs : nat;
  wandb_context : bool;
  episode_count : nat;
  arrays : option episode_arrays
}.

(** [__init__] (lines 323-335). *)
Definition recorder_init (num_envs : nat) (wandb_context : bool) : recorder :=
  Recorder num_envs wandb_context 0 None.

(** [reset] (lines 337-345): the arrays are zeroed, the episode count is
    kept. *)
Definition recorder_reset (w : recorder) : recorder :=
  Recorder (num_envs w) (wandb_context w) (episode_count w)
           (Some (EpisodeArrays (replicate (num_envs w) zero) (replicate (num_envs w) 0%Z)
                                (replicate (num_envs w) zero) (replicate (num_envs w) 0%Z))).

(** [a += b] on a one-dimensional array: [b] has the size of [a] or is
    broadcast from size 1; other sizes raise. *)
Definition iadd (a b : list F) : option (list F) :=
  if bool_decide (length b = length a) then Some (zip_with add a b)
  else match b with
       | [x] => Some ((fun y => add y x) <$> a)
       | _ => None
       end.

(** Lines 359-361: for one environment the flag is wrapped into a list;
    its truth value exists only for a single flag. *)
Definition done_list (num_envs : nat) (dones : list bool) : option (list bool) :=
  if bool_decide (num_envs = 1%nat) then
    match dones with
    | [d] => Some [d]
    | _ => None
    end
  else Some dones.

(** A line of the metrics sent to the tracker: the mean reward per step
    of the finished episode, and the index of the episode. *)
Record episode_log := EpisodeLog {
  log_rewards : Metric;
  log_episode : nat
}.

(** Lines 364-380: the body of the loop for a raised flag at index [i]. *)
Definition record_episode (context : bool) (i : nat)
           (st : nat * episode_arrays * list episode_log)
  : option (nat * episode_arrays * list episode_log) :=
  let '(count, a, logs) := st in
  episode_return ← episode_returns a !! i;
  episode_length ← episode_lengths a !! i;
  let logs' :=
    if context then logs ++ [EpisodeLog (quotient episode_return episode_length) count]
    else logs in
  Some (S count,
        EpisodeArrays (<[i := zero]> (episode_returns a))
                      (<[i := 0%Z]> (episode_lengths a))
                      (<[i := episode_return]> (episode_returns_saved a))
                      (<[i := episode_length]> (episode_lengths_saved a)),
        logs').

(** Lines 363-380: [for i in range(len(dones))]. *)
Fixpoint done_loop (context : bool) (i : nat) (dones : list bool)
         (st : nat * episode_arrays * list episode_log)
  : option (nat * episode_arrays * list episode_log) :=
  match dones with
  | [] => Some st
  | d :: rest =>
      st' ← (if d then record_episode context i st else Some st);
      done_loop context (S i) rest st'
  end.

(** [step] (lines 347-387) on the rewards and flags the environment
    returned: the new state, the lines logged and the flags handed on
    (for a single environment [dones[0]], kept here as a list of one). *)
Definition recorder_step (w : recorder) (rewards : list F) (dones : list bool)
  : option (recorder * list episode_log * list bool) :=
  a ← arrays w;
  returns ← iadd (episode_returns a) rewards;
  let lengths := (fun n => int32 (n + 1)) <$> episode_lengths a in
  dones' ← done_list (num_envs w) dones;
  '(count, a', logs) ←
    done_loop (wandb_context w) 0 dones'
      (episode_count w,
       EpisodeArrays returns lengths (episode_returns_saved a) (episode_lengths_saved a),
       []);
  returned ← (if bool_decide (1 < num_envs w)%nat then Some dones'
              else d ← head dones'; Some [d]);
  Some (Recorder (num_envs w) (wandb_context w) count (Some a'), logs, returned).

End Arithmetic.

Arguments EpisodeArrays {F}.
Arguments episode_returns {F}.
Arguments episode_lengths {F}.
Arguments episode_returns_saved {F}.
Arguments episode_lengths_saved {F}.
Arguments Recorder {F}.
Arguments num_envs {F}.
Arguments wandb_context {F}.
Arguments episode_count {F}.
Arguments arrays {F}.
Arguments recorder_init {F}.
Arguments recorder_reset {F}.
Arguments iadd {F}.
Arguments EpisodeLog {Metric}.
Arguments log_rewards {Metric}.
Arguments log_episode {Metric}.
Arguments record_episode {F} zero {Metric} quotient.
Arguments done_loop {F} zero {Metric} quotient.
Arguments recorder_step {F} zero add {Metric} quotient.

End Recorder.
(** * Properties *)

(** ** Hyperbolic functions *)

Lemma tanh_exp2 (x : R) : tanh x = (exp (2 * x) - 1) / (exp (2 * x) + 1).
Proof.
  unfold tanh, sinh, cosh.
  replace (2 * x) with (x + x) by ring.
  rewrite exp_plus, exp_Ropp.
  pose proof (exp_pos x) as Hx.
  field. split; nra.
Qed.

Lemma tanh_atanh (y : R) : -1 < y < 1 -> tanh (atanh y) = y.
Proof.
  intros [Hlo Hhi].
  rewrite tanh_exp2. unfold atanh.
  replace (2 * (/ 2 * ln ((1 + y) / (1 - y)))) with (ln ((1 + y) / (1 - y))) by field.
  rewrite exp_ln.
  - field. lra.
  - apply Rdiv_lt_0_compat; lra.
Qed.

Lemma tanh_bounds (x : R) : -1 < tanh x < 1.
Proof.
  rewrite tanh_exp2.
  pose proof (exp_pos (2 * x)) as Hx.
  split.
  - apply Rmult_lt_reg_r with (exp (2 * x) + 1); [lra|].
    unfold Rdiv. rewrite Rmult_assoc, Rinv_l by lra. lra.
  - apply Rmult_lt_reg_r with (exp (2 * x) + 1); [lra|].
    unfold Rdiv. rewrite Rmult_assoc, Rinv_l by lra. lra.
Qed.

(** ** Clipping *)

Lemma clip_bounds (x lo hi : R) : lo <= hi -> lo <= clip x lo hi <= hi.
Proof.
  intros H. unfold clip, Rmin, Rmax.
  destruct (Rle_dec x lo); destruct (Rle_dec _ hi); lra.
Qed.

Lemma clip_inside (x lo hi : R) : lo <= x <= hi -> clip x lo hi = x.
Proof.
  intros H. unfold clip, Rmin, Rmax.
  destruct (Rle_dec x lo); destruct (Rle_dec _ hi); lra.
Qed.

Lemma clip_above (x lo hi : R) : lo <= hi -> hi <= x -> clip x lo hi = hi.
Proof.
  intros H1 H2. unfold clip, Rmin, Rmax.
  destruct (Rle_dec x lo); destruct (Rle_dec _ hi); lra.
Qed.

Lemma clip_near (x lo hi d : R) :
  lo <= hi -> lo - d < x < hi + d -> 0 <= d -> Rabs (clip x lo hi - x) <= d.
Proof.
  intros H1 H2 H3. unfold clip, Rmin, Rmax.
  destruct (Rle_dec x lo); destruct (Rle_dec _ hi);
    apply Rabs_le; lra.
Qed.

Lemma EPSILON_bounds : 0 < EPSILON < / 2.
Proof. unfold EPSILON. lra. Qed.

Lemma LOG_EPSILON_neg : LOG_EPSILON < 0.
Proof.
  unfold LOG_EPSILON. rewrite <- ln_1.
  apply ln_increasing; pose proof EPSILON_bounds; lra.
Qed.

(** ** The scale of the sampling distribution *)

Module StdFacts.
Import Agent.

Lemma ln2_pos : 0 < ln 2.
Proof. pose proof ln_lt_2. lra. Qed.

Lemma softplus_arg_pos (s : R) : 0 < ln (1 + exp s).
Proof.
  rewrite <- ln_1. pose proof (exp_pos s).
  apply ln_increasing; lra.
Qed.

Lemma softplus_std_pos (s : R) : 0 < softplus_std s.
Proof.
  unfold softplus_std.
  pose proof (softplus_arg_pos s). pose proof ln2_pos.
  apply Rdiv_lt_0_compat; lra.
Qed.

Lemma softplus_std_mono (s s' : R) : s <= s' -> softplus_std s <= softplus_std s'.
Proof.
  intros [Hlt | ->]; [|lra].
  unfold softplus_std. pose proof ln2_pos.
  apply Rmult_le_compat_r; [left; apply Rinv_0_lt_compat; lra|].
  assert (ln (1 + exp s) < ln (1 + exp s')); [|lra].
  pose proof (exp_pos s). pose proof (exp_increasing _ _ Hlt).
  apply ln_increasing; lra.
Qed.

Lemma clip_std_bounds (p : R) : LOG_EPSILON <= clip_std p <= - LOG_EPSILON.
Proof.
  unfold clip_std. apply clip_bounds. pose proof LOG_EPSILON_neg. lra.
Qed.

Lemma fixed_std_bounds (p : R) : 0 < fixed_std p <= std_upper.
Proof.
  unfold fixed_std, std_upper. split.
  - apply softplus_std_pos.
  - apply softplus_std_mono, clip_std_bounds.
Qed.

End StdFacts.

(** C10.  Without gSDE, every scale that [get_action_and_value] hands to
    [Normal] (the learned parameter clipped to [log eps, -log eps] and sent
    through the soft-plus transform) is strictly positive and at most the
    constant [std_upper], whatever the value of the parameter. *)
Theorem fixed_scale_positive_bounded
        (actor actor_mean : vec -> vec) (a : Agent.t) (x eps : list vec)
        (mean scale sample : vec) (s : R) :
  Agent.use_sde a = false ->
  (mean, scale, sample) ∈ Agent.distribution actor actor_mean a x eps ->
  s ∈ scale ->
  0 < s <= Agent.std_upper.
Proof.
  unfold Agent.use_sde, Agent.distribution.
  destruct (Agent.noise a) as [std_param | ? ? ?]; [|discriminate].
  intros _ Hrow Hs.
  apply elem_of_zip_l, elem_of_zip_r in Hrow.
  apply list_elem_of_fmap in Hrow as (m & -> & _).
  apply list_elem_of_fmap in Hs as (p & -> & _).
  apply StdFacts.fixed_std_bounds.
Qed.

Lemma fixed_scale_positive_bounded_witness :
  0 < Agent.fixed_std 0 <= Agent.std_upper.
Proof.
  eapply (fixed_scale_positive_bounded
            (fun _ => []) (fun _ => [0])
            (Agent.mk 1 [-1] [1] [1] [0] (Agent.FixedStd [0]))
            [[]] [[0]] _ _ _ (Agent.fixed_std 0)).
  - reflexivity.
  - simpl. left.
  - left.
Defined.

(** ** The squash / rescale / unsquash round trip *)

Module RoundTripFacts.
Import Agent.

(** [init] stores the bounds it is given, divided by 3 with
    [relative_action]; the scale and the bias always come from the
    bounds as given. *)
Lemma init_bounds low high rel sde eps epss a :
  init low high rel sde eps epss = Some a ->
  action_scale a = (fun x => x / 2) <$> vsub high low
  /\ action_bias a = (fun x => x / 2) <$> vadd high low
  /\ action_min a = (if rel then (fun x => x / 3) <$> low else low)
  /\ action_max a = (if rel then (fun x => x / 3) <$> high else high).
Proof.
  unfold init, sample_weights. destruct sde; simpl; intros [= <-]; simpl; auto.
Qed.

Lemma unsquash_kernel (lo hi s : R) :
  lo < hi ->
  within_tolerance s
    (atanh (clip (2 * (tanh s * ((hi - lo) / 2) + (hi + lo) / 2 - lo) / (hi - lo) - 1)
                 (- (1 - EPSILON)) (1 - EPSILON))).
Proof.
  intros Hlt. unfold within_tolerance.
  replace (2 * (tanh s * ((hi - lo) / 2) + (hi + lo) / 2 - lo) / (hi - lo) - 1)
    with (tanh s) by (field; lra).
  pose proof (tanh_bounds s) as Hs. pose proof EPSILON_bounds as He.
  pose proof (clip_bounds (tanh s) (- (1 - EPSILON)) (1 - EPSILON)) as Hc.
  rewrite tanh_atanh by lra.
  apply clip_near; lra.
Qed.

Lemma round_trip_fields n low high nz sample :
  Forall2 Rlt low high ->
  length sample = length low ->
  Forall2 within_tolerance sample
    (round_trip (mk n low high ((fun x => x / 2) <$> vsub high low)
                    ((fun x => x / 2) <$> vadd high low) nz) sample).
Proof.
  unfold round_trip, gaussian_action, squashed_action, scaled_action,
    vadd, vsub, vmul, vdiv, vscale. simpl.
  intros H. revert sample.
  induction H as [|lo hi low high Hlt _ IH]; intros [|s sample] Hlen;
    try discriminate; simpl; constructor.
  - apply unsquash_kernel, Hlt.
  - apply IH. simpl in Hlen. lia.
Qed.

(** Without [relative_action] the round trip recovers, in every action
    dimension, a pre-squash value whose [tanh] is the [tanh] of the raw
    sample up to the clamp tolerance. *)
Lemma round_trip_standard low high sde eps epss a sample :
  Forall2 Rlt low high ->
  length sample = length low ->
  init low high false sde eps epss = Some a ->
  Forall2 within_tolerance sample (round_trip a sample).
Proof.
  intros Hb Hlen Hinit.
  destruct (init_bounds _ _ _ _ _ _ _ Hinit) as (Hs & Hbi & Hmin & Hmax).
  destruct a as [n amin amax sc bi nz]. simpl in *. subst.
  apply round_trip_fields; assumption.
Qed.

(** With [relative_action] and symmetric bounds [-b, b] the inverse map
    sees three times the squashed sample: the scale is that of the full
    range, the stored bounds are a third of it. *)
Lemma round_trip_relative_symmetric (b s : R) sde eps epss a :
  0 < b ->
  init [- b] [b] true sde eps epss = Some a ->
  round_trip a [s] = [atanh (clip (3 * tanh s) (- (1 - EPSILON)) (1 - EPSILON))].
Proof.
  intros Hb Hinit.
  destruct (init_bounds _ _ _ _ _ _ _ Hinit) as (Hs & Hbi & Hmin & Hmax).
  unfold round_trip, gaussian_action, squashed_action, scaled_action,
    vadd, vsub, vmul, vdiv, vscale.
  rewrite Hs, Hbi, Hmin, Hmax. simpl.
  do 3 f_equal. field. lra.
Qed.

End RoundTripFacts.

(** C1, on the relative-action path.  With the bounds of the script's
    action space and the raw sample [atanh (1/2)], the action is built with
    the scale of the full range but mapped back with the bounds divided by
    3: the value recovered is [atanh (1 - EPSILON)], whose [tanh] is
    [1 - EPSILON] and not within the tolerance of [tanh] of the sample,
    [1/2]. *)
Theorem relative_round_trip_at_half :
  exists a,
    Agent.init [- 2.5e-4] [2.5e-4] true false [] [] = Some a
    /\ Agent.round_trip a [atanh (/ 2)] = [atanh (1 - EPSILON)]
    /\ tanh (atanh (/ 2)) = / 2
    /\ tanh (atanh (1 - EPSILON)) = 1 - EPSILON
    /\ ~ Agent.within_tolerance (atanh (/ 2)) (atanh (1 - EPSILON)).
Proof.
  pose proof EPSILON_bounds as He.
  assert (H1 : tanh (atanh (/ 2)) = / 2) by (apply tanh_atanh; lra).
  assert (H2 : tanh (atanh (1 - EPSILON)) = 1 - EPSILON) by (apply tanh_atanh; lra).
  eexists. split; [reflexivity|]. split; [|split; [exact H1|split; [exact H2|]]].
  - unfold Agent.round_trip, Agent.gaussian_action, Agent.squashed_action,
      Agent.scaled_action, vadd, vsub, vmul, vdiv, vscale. simpl.
    rewrite H1. do 2 f_equal.
    apply clip_above; lra.
  - unfold Agent.within_tolerance. rewrite H1, H2.
    unfold EPSILON. intros H. unfold Rabs in H.
    destruct (Rcase_abs _); lra.
Qed.

(** ** Sub-cycled interpolation *)

Module SubcycleFacts.
Import Subcycle.

Lemma INR_subcycle_max : INR subcycle_max = 50.
Proof. unfold subcycle_max. rewrite INR_IZR_INZ. reflexivity. Qed.

(** The first substep of the standard mode starts the ramp. *)
Lemma smoothed_first (p a : vec) : smoothed_action false 0 p a = ramp 0 p a.
Proof.
  unfold smoothed_action, ramp. rewrite Nat.sub_0_r. reflexivity.
Qed.

(** Every later substep of the standard mode moves one step up the ramp. *)
Lemma smoothed_next (k : nat) (p a : vec) :
  (S k < subcycle_max)%nat ->
  smoothed_action false (S k) (ramp k p a) a = ramp (S k) p a.
Proof.
  intros Hk. unfold smoothed_action, ramp, vadd, vscale, vsub.
  assert (Hc : INR (k + 1) / INR subcycle_max
               + 1 / INR (subcycle_max - S k) * (1 - INR (k + 1) / INR subcycle_max)
               = INR (S k + 1) / INR subcycle_max).
  { rewrite minus_INR by lia.
    rewrite !plus_INR, !S_INR, INR_subcycle_max. change (INR 0) with 0.
    assert (INR k + 1 < 50).
    { rewrite <- INR_subcycle_max, <- S_INR. apply lt_INR, Hk. }
    field. lra. }
  revert Hc.
  generalize (INR (k + 1) / INR subcycle_max) (1 / INR (subcycle_max - S k))
             (INR (S k + 1) / INR subcycle_max).
  intros c1 c2 c3 Hc.
  revert a. induction p as [|x p IH]; intros [|y a]; simpl; try reflexivity.
  f_equal; [|apply IH].
  rewrite <- Hc. ring.
Qed.

Lemma ramp_last (p a : vec) :
  length p = length a -> ramp (subcycle_max - 1) p a = a.
Proof.
  unfold ramp, vadd, vscale, vsub.
  replace (INR (subcycle_max - 1 + 1) / INR subcycle_max) with 1.
  2:{ replace (subcycle_max - 1 + 1)%nat with subcycle_max by reflexivity.
      rewrite INR_subcycle_max. field. }
  revert a. induction p as [|x p IH]; intros [|y a] Hlen; simpl in *;
    try discriminate; try reflexivity.
  f_equal; [lra | apply IH; lia].
Qed.

Lemma default_last_cons {A : Type} (d x : A) (l : list A) :
  default d (last (x :: l)) = default x (last l).
Proof.
  revert d x. induction l as [|y l IH]; intros d x; [reflexivity|].
  change (last (x :: y :: l)) with (last (y :: l)).
  rewrite (IH d y), (IH x y). reflexivity.
Qed.

Section Env.

Context {Env Obs : Type}.
Variable env_step : Env -> vec -> Env * step_out Obs.
Variable use_relative_action : bool.

Local Abbreviation loop := (subcycle_loop env_step use_relative_action).
Local Abbreviation free := (uninterrupted env_step use_relative_action).

Lemma length_uninterrupted n c e prev action :
  length (free n c e prev action) = n.
Proof.
  revert c e prev. induction n as [|n IH]; intros c e prev; simpl; [reflexivity|].
  destruct (env_step e _) as [e' out]. simpl. f_equal. apply IH.
Qed.

(** What the loop has called is always a prefix of the uninterrupted
    sequence. *)
Lemma loop_prefix n c e prev action hist r :
  loop n c e prev action hist = Some r ->
  exists m, (m <= n)%nat /\ calls r = hist ++ take m (free n c e prev action).
Proof.
  revert c e prev hist. induction n as [|n IH]; intros c e prev hist; simpl.
  - intros [= <-]. exists 0%nat. simpl. rewrite app_nil_r. auto.
  - destruct (env_step e _) as [e' out] eqn:Hstep.
    destruct (done out !! 0%nat) as [[|]|] eqn:Hd; try discriminate.
    + intros [= <-]. exists 1%nat. split; [lia|]. simpl. rewrite take_0. reflexivity.
    + intros Hr. apply IH in Hr as (m & Hm & ->).
      exists (S m). split; [lia|]. rewrite <- app_assoc. reflexivity.
Qed.

(** No done flag at index 0: the loop runs all its substeps and keeps
    the last applied action. *)
Lemma loop_complete n c e prev action hist :
  (forall i call, free n c e prev action !! i = Some call -> done0 call = Some false) ->
  exists e',
    loop n c e prev action hist
    = Some (Result e' (Some (default prev (last (free n c e prev action).*1)))
                   (c + n) (hist ++ free n c e prev action)).
Proof.
  revert c e prev hist. induction n as [|n IH]; intros c e prev hist Hfree; simpl.
  - exists e. rewrite Nat.add_0_r, app_nil_r. reflexivity.
  - simpl in Hfree. destruct (env_step e _) as [e' out] eqn:Hstep.
    pose proof (Hfree 0%nat _ eq_refl) as Hd. unfold done0 in Hd. simpl in Hd.
    rewrite Hd.
    destruct (IH (S c) e' (smoothed_action use_relative_action c prev action)
                 (hist ++ [(smoothed_action use_relative_action c prev action, out)]))
      as [e'' ->].
    { intros i call Hi. apply (Hfree (S i)). exact Hi. }
    exists e''. f_equal. f_equal.
    + f_equal. rewrite fmap_cons. symmetry. apply default_last_cons.
    + lia.
    + rewrite <- app_assoc. reflexivity.
Qed.

(** The first done flag at index 0 ends the loop right after its
    substep. *)
Lemma loop_break n c e prev action hist k call :
  free n c e prev action !! k = Some call ->
  done0 call = Some true ->
  (forall j call', (j < k)%nat -> free n c e prev action !! j = Some call' ->
                   done0 call' = Some false) ->
  exists e',
    loop n c e prev action hist
    = Some (Result e' None (c + S k) (hist ++ take (S k) (free n c e prev action))).
Proof.
  revert n c e prev hist. induction k as [|k IH]; intros [|n] c e prev hist; simpl;
    try discriminate.
  - destruct (env_step e _) as [e' out] eqn:Hstep. simpl.
    intros [= <-] Hd _. unfold done0 in Hd. simpl in Hd. rewrite Hd.
    exists e'. rewrite take_0. f_equal. f_equal. lia.
  - destruct (env_step e _) as [e' out] eqn:Hstep. simpl.
    intros Hk Hd Hbefore.
    pose proof (Hbefore 0%nat _ ltac:(lia) eq_refl) as H0.
    unfold done0 in H0. simpl in H0. rewrite H0.
    destruct (IH n (S c) e' (smoothed_action use_relative_action c prev action)
                 (hist ++ [(smoothed_action use_relative_action c prev action, out)])
                 Hk Hd) as [e'' ->].
    { intros j call' Hj. apply (Hbefore (S j)). lia. }
    exists e''. f_equal. f_equal; [lia|]. rewrite <- app_assoc. reflexivity.
Qed.

End Env.

(** In the standard mode the uninterrupted sequence is the ramp from the
    previous action [p] to the target [a]. *)
Lemma uninterrupted_ramp {Env Obs : Type} (env_step : Env -> vec -> Env * step_out Obs)
      (p a : vec) n c e prev :
  (c + n <= subcycle_max)%nat ->
  prev = match c with O => p | S c' => ramp c' p a end ->
  forall i call,
    uninterrupted env_step false n c e prev a !! i = Some call ->
    call.1 = ramp (c + i) p a.
Proof.
  revert c e prev. induction n as [|n IH]; intros c e prev Hc Hprev i call; simpl;
    [discriminate|].
  destruct (env_step e _) as [e' out] eqn:Hstep.
  assert (Hsm : smoothed_action false c prev a = ramp c p a).
  { subst prev. destruct c as [|c']; [apply smoothed_first|].
    apply smoothed_next. lia. }
  destruct i as [|i]; simpl.
  - intros [= <-]. simpl. rewrite Nat.add_0_r. exact Hsm.
  - intros Hi. replace (c + S i)%nat with (S c + i)%nat by lia.
    eapply (IH (S c)); [lia | | exact Hi]. exact Hsm.
Qed.

End SubcycleFacts.

(** ** Sub-cycled interpolation on float32 tensors *)

Module Subcycle32Facts.
Import Subcycle32.

Lemma length_applied rel n c prev action :
  length (applied rel n c prev action) = n.
Proof.
  revert c prev. induction n as [|n IH]; intros c prev; simpl; [reflexivity|].
  f_equal. apply IH.
Qed.

(** Every substep but the first starts from the action applied by the
    substep before it. *)
Lemma applied_chain rel n :
  forall c prev action i x y,
    applied rel n c prev action !! i = Some x ->
    applied rel n c prev action !! S i = Some y ->
    y = smoothed_action rel (c + S i) x action.
Proof.
  induction n as [|n IH]; intros c prev action i x y; simpl; [discriminate|].
  destruct i as [|i]; simpl.
  - intros [= <-]. destruct n as [|n]; simpl; [discriminate|].
    intros [= <-]. rewrite Nat.add_1_r. reflexivity.
  - intros Hx Hy. replace (c + S (S i))%nat with (S c + S i)%nat by lia.
    eapply IH; eassumption.
Qed.

(** The fraction of the last substep of the standard mode,
    [1 / (50 - 49)], is 1. *)
Lemma last_fraction_one :
  action_fraction false (Subcycle.subcycle_max - 1) = Float32.one.
Proof. vm_compute. reflexivity. Qed.

Section Env.

Context {Env Obs : Type}.
Variable env_step : Env -> Float32.vec32 -> Env * step_out Obs.
Variable use_relative_action : bool.

(** The actions the loop hands to the environment are the first ones
    of [applied], as many as it made calls. *)
Lemma loop_applied n :
  forall c e prev action hist r,
    subcycle_loop env_step use_relative_action n c e prev action hist = Some r ->
    exists m,
      (m <= n)%nat
      /\ length (calls r) = (length hist + m)%nat
      /\ (calls r).*1 = hist.*1 ++ take m (applied use_relative_action n c prev action).
Proof.
  induction n as [|n IH]; intros c e prev action hist r; simpl.
  - intros [= <-]. exists 0%nat. simpl. rewrite app_nil_r. auto with lia.
  - destruct (env_step e _) as [e' out] eqn:Hstep.
    destruct (done out !! 0%nat) as [[|]|] eqn:Hd; try discriminate.
    + intros [= <-]. exists 1%nat. simpl. rewrite take_0, length_app, fmap_app.
      simpl. auto with lia.
    + intros Hr. apply IH in Hr as (m & Hm & Hlen & Hcalls).
      exists (S m). rewrite Hlen, Hcalls, length_app, fmap_app, <- app_assoc. simpl.
      auto with lia.
Qed.

End Env.

End Subcycle32Facts.

(** The exact reading of the standard mode: whatever the environment
    answers, the action applied at the 0-indexed substep [k] is
    [p + ((k + 1) / 50) * (a - p)], and the action of the fiftieth
    substep is [a]. *)
Lemma exact_standard_ramp
      {Env Obs : Type} (env_step : Env -> vec -> Env * Subcycle.step_out Obs)
      (e : Env) (prev_action : option vec) (action : vec)
      (r : Subcycle.result Env Obs) :
  Subcycle.macro_step env_step false e prev_action action = Some r ->
  (forall k call,
      Subcycle.calls r !! k = Some call ->
      call.1 = Subcycle.ramp k (Subcycle.init_prev_action prev_action action) action)
  /\ (length (Subcycle.init_prev_action prev_action action) = length action ->
      forall call,
        Subcycle.calls r !! (Subcycle.subcycle_max - 1)%nat = Some call ->
        call.1 = action).
Proof.
  intros Hrun. unfold Subcycle.macro_step in Hrun.
  set (p := Subcycle.init_prev_action prev_action action) in *.
  destruct (SubcycleFacts.loop_prefix _ _ _ _ _ _ _ _ _ Hrun) as (m & Hm & Hcalls).
  rewrite app_nil_l in Hcalls.
  assert (Hramp : forall k call,
             Subcycle.calls r !! k = Some call -> call.1 = Subcycle.ramp k p action).
  { intros k call Hk. rewrite Hcalls in Hk.
    apply lookup_take_Some in Hk as [Hk _].
    apply (SubcycleFacts.uninterrupted_ramp env_step p action _ 0%nat e p)
      with (i := k) in Hk; [exact Hk | lia | reflexivity]. }
  split; [exact Hramp|].
  intros Hlen call Hk. rewrite (Hramp _ _ Hk). apply SubcycleFacts.ramp_last, Hlen.
Qed.

(** C2.  The standard mode on the float32 tensors of the script.  The
    actions applied are those of [Subcycle32.applied]: the substep [k]
    applies [prev + fraction * (action - prev)] with [prev] the action
    applied by the substep before and [fraction] the float32 number
    nearest [1 / (50 - k)], every operation rounded.  The fraction of
    the fiftieth substep is exactly 1, so its action is
    [prev + 1 * (action - prev)], rounded.  From [p = 0.0] to [a = 1.0]
    the applied actions stay within [2^-22] of 1/50, 2/50, ... and the
    fiftieth is exactly 1.0.  In the exact reading of the same loop the
    substep [k] applies [p + ((k + 1) / 50) * (a - p)] and the fiftieth
    the target itself. *)
Theorem standard_ramp_final_fraction_one
        {Env Obs : Type}
        (env_step : Env -> Float32.vec32 -> Env * Subcycle32.step_out Obs)
        (e : Env) (prev_action : option Float32.vec32) (action : Float32.vec32)
        (r : Subcycle32.result Env Obs) :
  Subcycle32.macro_step env_step false e prev_action action = Some r ->
  (Subcycle32.calls r).*1
  = take (length (Subcycle32.calls r))
         (Subcycle32.applied false Subcycle.subcycle_max 0
            (Subcycle32.init_prev_action prev_action action) action)
  /\ (forall k before call,
         Subcycle32.calls r !! k = Some before ->
         Subcycle32.calls r !! S k = Some call ->
         call.1 = Subcycle32.smoothed_action false (S k) before.1 action)
  /\ (forall before call,
         Subcycle32.calls r !! (Subcycle.subcycle_max - 2)%nat = Some before ->
         Subcycle32.calls r !! (Subcycle.subcycle_max - 1)%nat = Some call ->
         call.1
         = Float32.vadd before.1
             (Float32.vscale Float32.one (Float32.vsub action before.1)))
  /\ (Subcycle32.init_prev_action prev_action action = [Float32.zero] ->
      action = [Float32.one] ->
      length (Subcycle32.calls r) = Subcycle.subcycle_max ->
      last (Subcycle32.calls r).*1 = Some [Float32.one]
      /\ Subcycle32.all_close (concat (Subcycle32.calls r).*1) Subcycle32.fiftieths
         = true)
  /\ (forall (env_step' : Env -> vec -> Env * Subcycle.step_out Obs)
             (e' : Env) (prev_action' : option vec) (action' : vec)
             (r' : Subcycle.result Env Obs),
         Subcycle.macro_step env_step' false e' prev_action' action' = Some r' ->
         (forall k call,
             Subcycle.calls r' !! k = Some call ->
             call.1
             = Subcycle.ramp k (Subcycle.init_prev_action prev_action' action') action')
         /\ (length (Subcycle.init_prev_action prev_action' action') = length action' ->
             forall call,
               Subcycle.calls r' !! (Subcycle.subcycle_max - 1)%nat = Some call ->
               call.1 = action')).
Proof.
  intros Hrun. unfold Subcycle32.macro_step in Hrun.
  set (p := Subcycle32.init_prev_action prev_action action) in *.
  destruct (Subcycle32Facts.loop_applied _ _ _ _ _ _ _ _ _ Hrun) as (m & Hm & Hlen & Hcalls).
  rewrite app_nil_l in Hcalls. change (length [] + m)%nat with m in Hlen. subst m.
  assert (Hchain : forall k before call,
             Subcycle32.calls r !! k = Some before ->
             Subcycle32.calls r !! S k = Some call ->
             call.1 = Subcycle32.smoothed_action false (S k) before.1 action).
  { intros k before call Hb Hc.
    assert (Hb' : (Subcycle32.calls r).*1 !! k = Some before.1)
      by (rewrite list_lookup_fmap, Hb; reflexivity).
    assert (Hc' : (Subcycle32.calls r).*1 !! S k = Some call.1)
      by (rewrite list_lookup_fmap, Hc; reflexivity).
    rewrite Hcalls in Hb', Hc'.
    apply lookup_take_Some in Hb' as [Hb' _]. apply lookup_take_Some in Hc' as [Hc' _].
    apply (Subcycle32Facts.applied_chain _ _ _ _ _ _ _ _ Hb' Hc'). }
  split; [exact Hcalls|]. split; [exact Hchain|]. split.
  { intros before call Hb Hc.
    rewrite (Hchain _ _ _ Hb Hc).
    unfold Subcycle32.smoothed_action.
    change (S (Subcycle.subcycle_max - 2)) with (Subcycle.subcycle_max - 1)%nat.
    rewrite Subcycle32Facts.last_fraction_one. reflexivity. }
  split.
  { intros Hp Ha Hfull. rewrite Hcalls, Hfull, Hp, Ha.
    vm_compute. split; reflexivity. }
  intros env_step' e' prev_action' action' r' Hrun'.
  exact (exact_standard_ramp env_step' e' prev_action' action' r' Hrun').
Qed.

Lemma standard_ramp_final_fraction_one_witness :
  exists r,
    Subcycle32.macro_step Subcycle32.quiet false tt (Some [Float32.zero]) [Float32.one]
    = Some r
    /\ last (Subcycle32.calls r).*1 = Some [Float32.one].
Proof.
  destruct (Subcycle32.macro_step Subcycle32.quiet false tt
              (Some [Float32.zero]) [Float32.one]) as [r|] eqn:Hrun;
    [|vm_compute in Hrun; discriminate].
  exists r. split; [reflexivity|].
  destruct (standard_ramp_final_fraction_one Subcycle32.quiet tt
              (Some [Float32.zero]) [Float32.one] r Hrun)
    as (_ & _ & _ & Hexample & _).
  apply Hexample; [reflexivity | reflexivity |].
  vm_compute in Hrun. injection Hrun as <-. reflexivity.
Defined.

(** C2, counterexample on float32 tensors: from the previous
    action [2.5e-4] (the float32 number [8589935 * 2^-35]) to the target
    [1e-6] ([8796093 * 2^-43]) the fiftieth substep applies
    [8796092 * 2^-43], one unit in the last place below the target. *)
Lemma standard_ramp_misses_target :
  Float32.literal 25 100000 = S754_finite false 8589935 (-35)
  /\ Float32.literal 1 1000000 = S754_finite false 8796093 (-43)
  /\ (fun r => (length (Subcycle32.calls r), last (Subcycle32.calls r).*1))
       <$> Subcycle32.macro_step Subcycle32.quiet false tt
             (Some [Float32.literal 25 100000]) [Float32.literal 1 1000000]
     = Some (50%nat, Some [S754_finite false 8796092 (-43)])
  /\ [S754_finite false 8796092 (-43)] <> [Float32.literal 1 1000000].
Proof.
  split; [vm_compute; reflexivity|]. split; [vm_compute; reflexivity|].
  split; [vm_compute; reflexivity|]. vm_compute. discriminate.
Qed.

(** C4.  When the environment at index 0 reports termination, that is
    when [done[0]] is first raised at the 0-indexed substep [k] of a
    macro-step, the loop stops right after that substep: its calls are
    the first [k + 1] of the uninterrupted sequence and no more, and the
    previous action is left undefined.  The next macro-step starts from
    [0 * action], a tensor of zeros. *)
Theorem done_exits_and_resets
        {Env Obs : Type} (env_step : Env -> vec -> Env * Subcycle.step_out Obs)
        (use_relative_action : bool)
        (e : Env) (prev_action : option vec) (action : vec)
        (k : nat) (call : vec * Subcycle.step_out Obs) :
  Subcycle.uninterrupted env_step use_relative_action Subcycle.subcycle_max 0 e
    (Subcycle.init_prev_action prev_action action) action !! k = Some call ->
  Subcycle.done0 call = Some true ->
  (forall j call',
      (j < k)%nat ->
      Subcycle.uninterrupted env_step use_relative_action Subcycle.subcycle_max 0 e
        (Subcycle.init_prev_action prev_action action) action !! j = Some call' ->
      Subcycle.done0 call' = Some false) ->
  exists r,
    Subcycle.macro_step env_step use_relative_action e prev_action action = Some r
    /\ Subcycle.calls r
       = take (S k)
           (Subcycle.uninterrupted env_step use_relative_action Subcycle.subcycle_max 0 e
              (Subcycle.init_prev_action prev_action action) action)
    /\ length (Subcycle.calls r) = S k
    /\ last (Subcycle.calls r) = Some call
    /\ Subcycle.subcycle_counter r = S k
    /\ Subcycle.prev_action r = None
    /\ forall (e' : Env) (action' : vec),
        Subcycle.init_prev_action (Subcycle.prev_action r) action' = vscale 0 action'
        /\ Forall (fun x => x = 0) (Subcycle.init_prev_action (Subcycle.prev_action r) action')
        /\ Subcycle.macro_step env_step use_relative_action e' (Subcycle.prev_action r) action'
           = Subcycle.subcycle_loop env_step use_relative_action Subcycle.subcycle_max 0 e'
               (vscale 0 action') action' [].
Proof.
  intros Hk Hd Hbefore.
  destruct (SubcycleFacts.loop_break env_step use_relative_action _ 0%nat e _ action []
              k call Hk Hd Hbefore) as [e' Hrun].
  pose proof (lookup_lt_Some _ _ _ Hk) as Hlt.
  eexists. split; [exact Hrun|].
  cbn [Subcycle.calls Subcycle.prev_action Subcycle.subcycle_counter Nat.add].
  rewrite app_nil_l.
  split; [reflexivity|]. split; [rewrite length_take; lia|].
  split.
  { rewrite last_lookup, length_take, Nat.min_l by lia.
    cbn [Init.Nat.pred]. rewrite lookup_take_lt by lia. exact Hk. }
  split; [reflexivity|]. split; [reflexivity|].
  intros e'' action'. split; [reflexivity|]. split; [|reflexivity].
  cbn [Subcycle.init_prev_action]. unfold vscale.
  apply Forall_fmap, Forall_forall. intros x _. simpl. lra.
Qed.

Lemma done_exits_and_resets_witness :
  exists r,
    Subcycle.macro_step Subcycle.Scenario.done_at_tenth false 0%nat None [1] = Some r
    /\ length (Subcycle.calls r) = 10%nat
    /\ Subcycle.prev_action r = None.
Proof.
  edestruct (done_exits_and_resets Subcycle.Scenario.done_at_tenth false 0%nat None [1] 9)
    as (r & Hrun & _ & Hlen & _ & _ & Hprev & _).
  - reflexivity.
  - reflexivity.
  - intros j call' Hj.
    do 9 (destruct j as [|j]; [intros [= <-]; reflexivity|]).
    lia.
  - exists r. auto.
Defined.

(** C4, counterexample with a termination reported by an environment
    other than the one at index 0.  Of two environments
    the second reports termination at the tenth substep: the loop goes
    on to the fiftieth and the previous action is kept. *)
Lemma done_elsewhere_does_not_exit :
  exists r call,
    Subcycle.macro_step Asynchronous.other_done_at_tenth false 0%nat None [1; 1] = Some r
    /\ Subcycle.calls r !! 9%nat = Some call
    /\ Subcycle.done call.2 = [false; true]
    /\ length (Subcycle.calls r) = 50%nat
    /\ Subcycle.subcycle_counter r = 50%nat
    /\ Subcycle.prev_action r <> None.
Proof.
  assert (Hflags : forall n c e prev i call,
             Subcycle.uninterrupted Asynchronous.other_done_at_tenth false n c e prev [1; 1]
               !! i = Some call ->
             Subcycle.done call.2 = [false; (e + i =? 9)%nat]).
  { intros n. induction n as [|n IH]; intros c e prev i call; [discriminate|].
    cbn [Subcycle.uninterrupted Asynchronous.other_done_at_tenth].
    destruct i as [|i].
    - intros [= <-]. cbn [snd Subcycle.done]. rewrite Nat.add_0_r. reflexivity.
    - intros Hi. apply IH in Hi. rewrite Hi. do 3 f_equal. lia. }
  destruct (SubcycleFacts.loop_complete Asynchronous.other_done_at_tenth false
              Subcycle.subcycle_max 0 0%nat
              (Subcycle.init_prev_action None [1; 1]) [1; 1] []) as [e' Hrun].
  { intros i call Hi. unfold Subcycle.done0. rewrite (Hflags _ _ _ _ _ _ Hi). reflexivity. }
  match type of Hrun with
  | _ = Some ?r0 =>
      destruct (lookup_lt_is_Some_2 (Subcycle.calls r0) 9) as [call Hcall]
  end.
  { cbn [Subcycle.calls]. rewrite app_nil_l, SubcycleFacts.length_uninterrupted.
    unfold Subcycle.subcycle_max. lia. }
  eexists. exists call. split; [exact Hrun|]. split; [exact Hcall|].
  cbn [Subcycle.calls Subcycle.subcycle_counter Subcycle.prev_action] in *.
  rewrite app_nil_l in *.
  split; [exact (Hflags _ _ _ _ _ _ Hcall)|].
  split; [apply SubcycleFacts.length_uninterrupted|].
  split; [reflexivity | discriminate].
Qed.

(** C5.  Only [done[0]] is tested.  As long as the environment at index 0
    does not report termination, whatever the flags of the other
    environments are, the loop runs all 50 substeps and the previous
    action becomes the action applied last. *)
Theorem only_index_zero_stops
        {Env Obs : Type} (env_step : Env -> vec -> Env * Subcycle.step_out Obs)
        (use_relative_action : bool)
        (e : Env) (prev_action : option vec) (action : vec) :
  (forall i call,
      Subcycle.uninterrupted env_step use_relative_action Subcycle.subcycle_max 0 e
        (Subcycle.init_prev_action prev_action action) action !! i = Some call ->
      Subcycle.done0 call = Some false) ->
  exists r last_call,
    Subcycle.macro_step env_step use_relative_action e prev_action action = Some r
    /\ Subcycle.calls r
       = Subcycle.uninterrupted env_step use_relative_action Subcycle.subcycle_max 0 e
           (Subcycle.init_prev_action prev_action action) action
    /\ length (Subcycle.calls r) = Subcycle.subcycle_max
    /\ Subcycle.subcycle_counter r = Subcycle.subcycle_max
    /\ last (Subcycle.calls r) = Some last_call
    /\ Subcycle.prev_action r = Some last_call.1.
Proof.
  intros Hfree.
  destruct (SubcycleFacts.loop_complete env_step use_relative_action _ 0%nat e _ action []
              Hfree) as [e' Hrun].
  set (U := Subcycle.uninterrupted env_step use_relative_action Subcycle.subcycle_max 0 e
              (Subcycle.init_prev_action prev_action action) action) in *.
  assert (HlenU : length U = Subcycle.subcycle_max)
    by apply SubcycleFacts.length_uninterrupted.
  destruct (last U) as [last_call|] eqn:Hlast.
  2:{ apply last_None in Hlast. rewrite Hlast in HlenU. discriminate. }
  exists (Subcycle.Result e' (Some (default (Subcycle.init_prev_action prev_action action)
                                            (last U.*1)))
                          (0 + Subcycle.subcycle_max) ([] ++ U)), last_call.
  split; [exact Hrun|].
  cbn [Subcycle.calls Subcycle.prev_action Subcycle.subcycle_counter Nat.add].
  rewrite app_nil_l.
  split; [reflexivity|]. split; [exact HlenU|]. split; [reflexivity|].
  split; [exact Hlast|].
  rewrite fmap_last, Hlast. reflexivity.
Qed.

Lemma only_index_zero_stops_witness :
  exists r,
    Subcycle.macro_step Subcycle.Scenario.other_done false tt None [1; 1] = Some r
    /\ length (Subcycle.calls r) = 50%nat
    /\ (forall call, call ∈ Subcycle.calls r -> Subcycle.done call.2 = [false; true])
    /\ is_Some (Subcycle.prev_action r).
Proof.
  assert (Hall : forall n c e prev call,
             call ∈ Subcycle.uninterrupted Subcycle.Scenario.other_done false n c e prev [1; 1] ->
             Subcycle.done call.2 = [false; true]).
  { intros n. induction n as [|n IH]; intros c e prev call Hin; simpl in Hin.
    - inversion Hin.
    - apply elem_of_cons in Hin as [-> | Hin]; [reflexivity|].
      apply IH in Hin. exact Hin. }
  destruct (only_index_zero_stops Subcycle.Scenario.other_done false tt None [1; 1])
    as (r & last_call & Hrun & Hcalls & Hlen & _ & _ & Hprev).
  { intros i call Hi. apply list_elem_of_lookup_2, Hall in Hi.
    unfold Subcycle.done0. rewrite Hi. reflexivity. }
  exists r. split; [exact Hrun|]. split; [exact Hlen|]. split.
  - intros call Hin. rewrite Hcalls in Hin. apply Hall in Hin. exact Hin.
  - rewrite Hprev. eauto.
Defined.

(** ** Advantages and returns *)

Module ReturnsFacts.
Import Returns.

Section Rollout.

Context {Obs : Type}.
Variable critic : Obs -> R.
Variable num_steps : nat.
Variable gamma gae_lambda : R.
Variable rewards values dones : list R.
Variable next_obs : Obs.
Variable next_done : R.

Hypothesis rewards_rows : length rewards = num_steps.
Hypothesis values_rows : length values = num_steps.
Hypothesis dones_rows : length dones = num_steps.

Local Abbreviation nn := (nextnonterminal num_steps dones next_done).
Local Abbreviation nv := (nextvalues critic num_steps next_obs).
Local Abbreviation next := (next_of critic num_steps dones next_obs next_done).
Local Abbreviation gae_step :=
  (gae_body critic num_steps gamma gae_lambda rewards values dones next_obs next_done).
Local Abbreviation return_step :=
  (return_body critic num_steps gamma rewards dones next_obs next_done).

(** Inside the buffers the lookups of [next_of] succeed. *)
Lemma next_of_inside (source : list R) (t : nat) :
  length source = num_steps -> (t < num_steps)%nat ->
  next source t = Some (nn t, nv source t).
Proof.
  intros Hs Ht. unfold next_of, nextnonterminal, nextvalues.
  case_bool_decide; [reflexivity|].
  rewrite (list_lookup_lookup_total_lt dones (t + 1)) by lia.
  rewrite (list_lookup_lookup_total_lt source (t + 1)) by lia.
  reflexivity.
Qed.

(** The last step never reads the buffer handed to [next_of]. *)
Lemma next_of_last (source : list R) :
  next source (num_steps - 1) = Some (1 - next_done, critic next_obs).
Proof. unfold next_of. rewrite bool_decide_eq_true_2 by reflexivity. reflexivity. Qed.

Local Abbreviation delta :=
  (td_residual critic num_steps gamma rewards values dones next_obs next_done).

Lemma gae_body_inside (t : nat) (advantages : list R) (lastgaelam : R) :
  (t < num_steps)%nat ->
  gae_step t (advantages, lastgaelam)
  = Some (<[t := delta t + gamma * gae_lambda * nn t * lastgaelam]> advantages,
          delta t + gamma * gae_lambda * nn t * lastgaelam).
Proof.
  intros Ht. unfold gae_body, td_residual.
  rewrite next_of_inside by (assumption || lia). simpl.
  rewrite (list_lookup_lookup_total_lt rewards t) by lia.
  rewrite (list_lookup_lookup_total_lt values t) by lia.
  reflexivity.
Qed.

Lemma return_body_inside (t : nat) (returns : list R) :
  length returns = num_steps -> (t < num_steps)%nat ->
  return_step t returns
  = Some (<[t := rewards !!! t + gamma * nn t * nv returns t]> returns).
Proof.
  intros Hr Ht. unfold return_body.
  rewrite next_of_inside by (assumption || lia). simpl.
  rewrite (list_lookup_lookup_total_lt rewards t) by lia.
  reflexivity.
Qed.

(** The GAE loop from step [n - 1] down to 0: it succeeds, leaves the
    entries from [n] on alone and fills each entry below [n] from the
    residual of its step and the advantage of the step after it. *)
Lemma gae_loop_spec (n : nat) :
  (n <= num_steps)%nat ->
  forall (advantages : list R) (lastgaelam : R),
    length advantages = num_steps ->
    exists advantages' lastgaelam',
      reversed_range gae_step n (advantages, lastgaelam)
      = Some (advantages', lastgaelam')
      /\ length advantages' = num_steps
      /\ (forall t, (n <= t)%nat -> advantages' !!! t = advantages !!! t)
      /\ (forall t, (t < n)%nat ->
            advantages' !!! t
            = delta t + gamma * gae_lambda * nn t
                        * (if bool_decide (S t = n) then lastgaelam
                           else advantages' !!! (S t))).
Proof.
  induction n as [|t IH]; intros Hn advantages lastgaelam Hlen.
  - exists advantages, lastgaelam. simpl.
    repeat split; auto. intros t Ht. lia.
  - cbn [reversed_range]. rewrite gae_body_inside by lia. cbn [mbind option_bind].
    set (A := delta t + gamma * gae_lambda * nn t * lastgaelam).
    destruct (IH ltac:(lia) (<[t := A]> advantages) A) as
      (adv' & last' & Hrun & Hlen' & Hkeep & Hfill).
    { rewrite length_insert. exact Hlen. }
    exists adv', last'. split; [exact Hrun|]. split; [exact Hlen'|].
    assert (Ht : adv' !!! t = A).
    { rewrite Hkeep by lia. apply list_lookup_total_insert_eq. lia. }
    split.
    + intros t' Ht'. rewrite Hkeep by lia.
      apply list_lookup_total_insert_ne. lia.
    + intros t' Ht'. destruct (decide (t' = t)) as [-> | Hne].
      * rewrite bool_decide_eq_true_2 by reflexivity. exact Ht.
      * rewrite Hfill by lia.
        rewrite (bool_decide_eq_false_2 (S t' = S t)) by lia.
        case_bool_decide as Hc; [|reflexivity].
        rewrite Hc, Ht. reflexivity.
Qed.

(** The loop without GAE, in the same form.  The return of the step
    after [t] is read from the array the loop is filling. *)
Lemma return_loop_spec (n : nat) :
  (n <= num_steps)%nat ->
  forall (returns : list R),
    length returns = num_steps ->
    exists returns',
      reversed_range return_step n returns = Some returns'
      /\ length returns' = num_steps
      /\ (forall t, (n <= t)%nat -> returns' !!! t = returns !!! t)
      /\ (forall t, (t < n)%nat ->
            returns' !!! t
            = rewards !!! t + gamma * nn t
                              * (if bool_decide (S t = n) then nv returns t
                                 else nv returns' t)).
Proof.
  induction n as [|t IH]; intros Hn returns Hlen.
  - exists returns. simpl. repeat split; auto. intros t Ht. lia.
  - cbn [reversed_range]. rewrite return_body_inside by (assumption || lia).
    cbn [mbind option_bind].
    set (G := rewards !!! t + gamma * nn t * nv returns t).
    destruct (IH ltac:(lia) (<[t := G]> returns)) as (ret' & Hrun & Hlen' & Hkeep & Hfill).
    { rewrite length_insert. exact Hlen. }
    exists ret'. split; [exact Hrun|]. split; [exact Hlen'|].
    split.
    + intros t' Ht'. rewrite Hkeep by lia.
      apply list_lookup_total_insert_ne. lia.
    + intros t' Ht'. destruct (decide (t' = t)) as [-> | Hne].
      * rewrite bool_decide_eq_true_2 by reflexivity.
        rewrite Hkeep by lia. apply list_lookup_total_insert_eq. lia.
      * rewrite Hfill by lia.
        rewrite (bool_decide_eq_false_2 (S t' = S t)) by lia.
        case_bool_decide as Hc; [|reflexivity].
        f_equal. f_equal. unfold nextvalues.
        case_bool_decide; [reflexivity|].
        rewrite Hkeep by lia. reflexivity.
Qed.

Lemma length_zeros_like (l : list R) : length (zeros_like l) = length l.
Proof. unfold zeros_like. apply length_fmap. Qed.

(** With [gae_lambda = 1] an array filled by the GAE recursion, plus
    the values, is an array filled by the plain return recursion. *)
Lemma filled_arrays_agree (advantages returns : list R) :
  gae_lambda = 1 ->
  (forall t, (t < num_steps)%nat ->
     advantages !!! t
     = delta t + gamma * gae_lambda * nn t
                 * (if bool_decide (S t = num_steps) then 0 else advantages !!! (S t))) ->
  (forall t, (t < num_steps)%nat ->
     returns !!! t = rewards !!! t + gamma * nn t * nv returns t) ->
  forall k t, (t + k = num_steps - 1)%nat -> (t < num_steps)%nat ->
    advantages !!! t + values !!! t = returns !!! t.
Proof.
  intros Hlam Hadv Hret. induction k as [|k IH]; intros t Hk Ht.
  - rewrite (Hadv t Ht), (Hret t Ht), Hlam.
    rewrite bool_decide_eq_true_2 by lia.
    unfold td_residual, nextvalues. rewrite !bool_decide_eq_true_2 by lia. ring.
  - rewrite (Hadv t Ht), (Hret t Ht), Hlam.
    rewrite bool_decide_eq_false_2 by lia.
    unfold td_residual, nextvalues. rewrite !bool_decide_eq_false_2 by lia.
    rewrite !Nat.add_1_r.
    rewrite <- (IH (S t)) by lia. ring.
Qed.

(** The discounted Monte-Carlo return, one step at a time. *)
Lemma monte_carlo_last :
  (0 < num_steps)%nat ->
  monte_carlo_return gamma num_steps rewards dones (num_steps - 1)
  = rewards !!! (num_steps - 1)%nat.
Proof.
  intros Hpos. unfold monte_carlo_return.
  replace (num_steps - (num_steps - 1))%nat with 1%nat by lia.
  unfold mask. simpl. rewrite Nat.add_0_r. ring.
Qed.

Lemma sum_scale (c : R) (f : nat -> R) (l : list nat) :
  foldr Rplus 0 ((fun i => c * f i) <$> l) = c * foldr Rplus 0 (f <$> l).
Proof.
  induction l as [|i l IH]; [simpl; ring|].
  rewrite !fmap_cons. cbn [foldr]. rewrite IH. ring.
Qed.

Lemma mask_succ (t i : nat) :
  mask dones t (S i) = (1 - dones !!! (t + 1)%nat) * mask dones (S t) i.
Proof.
  unfold mask. rewrite <- cons_seq, <- fmap_S_seq, fmap_cons, <- list_fmap_compose.
  cbn [foldr]. rewrite Nat.add_0_r. f_equal. f_equal.
  apply list_fmap_ext. intros _ j _. simpl.
  replace (t + S j + 1)%nat with (S (t + j + 1)) by lia. reflexivity.
Qed.

Lemma monte_carlo_step (t : nat) :
  (t + 1 < num_steps)%nat ->
  monte_carlo_return gamma num_steps rewards dones t
  = rewards !!! t
    + gamma * (1 - dones !!! (t + 1)%nat)
      * monte_carlo_return gamma num_steps rewards dones (S t).
Proof.
  intros Ht. unfold monte_carlo_return.
  replace (num_steps - t)%nat with (S (num_steps - S t)) by lia.
  rewrite <- cons_seq, <- fmap_S_seq, fmap_cons, <- list_fmap_compose.
  cbn [foldr]. rewrite Nat.add_0_r.
  rewrite <- sum_scale.
  f_equal.
  - unfold mask. simpl. ring.
  - f_equal. apply list_fmap_ext. intros _ i _. simpl.
    rewrite mask_succ.
    replace (t + S i)%nat with (S (t + i)) by lia. ring.
Qed.

(** Without a bootstrap term an array filled by the return recursion
    holds the discounted Monte-Carlo returns. *)
Lemma filled_array_monte_carlo (returns : list R) :
  gamma * (1 - next_done) * critic next_obs = 0 ->
  (forall t, (t < num_steps)%nat ->
     returns !!! t = rewards !!! t + gamma * nn t * nv returns t) ->
  forall k t, (t + k = num_steps - 1)%nat -> (t < num_steps)%nat ->
    returns !!! t = monte_carlo_return gamma num_steps rewards dones t.
Proof.
  intros Hboot Hret. induction k as [|k IH]; intros t Hk Ht.
  - rewrite (Hret t Ht). replace t with (num_steps - 1)%nat by lia.
    rewrite monte_carlo_last by lia.
    unfold nextnonterminal, nextvalues, next_value.
    rewrite !bool_decide_eq_true_2 by lia.
    rewrite Hboot. ring.
  - rewrite (Hret t Ht), monte_carlo_step by lia.
    unfold nextnonterminal, nextvalues.
    rewrite !bool_decide_eq_false_2 by lia.
    rewrite !Nat.add_1_r.
    rewrite <- (IH (S t)) by lia. ring.
Qed.

End Rollout.

End ReturnsFacts.

(** The exact reading: with [gae_lambda = 1] the returns of the GAE
    branch ([advantages + values]) are the returns of the branch
    without GAE, for every rollout and every bootstrap value; and when
    the bootstrap term vanishes (the critic's next value is zero) both
    are the discounted Monte-Carlo returns. *)
Lemma exact_gae_lambda_one
        {Obs : Type} (critic : Obs -> R) (num_steps : nat) (gamma gae_lambda : R)
        (rewards values dones : list R) (next_obs : Obs) (next_done : R) :
  length rewards = num_steps ->
  length values = num_steps ->
  length dones = num_steps ->
  exists advantages returns advantages' returns',
    Returns.advantages_and_returns critic num_steps gamma 1
      rewards values dones next_obs next_done true = Some (advantages, returns)
    /\ Returns.advantages_and_returns critic num_steps gamma gae_lambda
         rewards values dones next_obs next_done false = Some (advantages', returns')
    /\ returns = returns'
    /\ (critic next_obs = 0 ->
        returns
        = Returns.monte_carlo_return gamma num_steps rewards dones <$> seq 0 num_steps).
Proof.
  intros Hr Hv Hd.
  destruct (ReturnsFacts.gae_loop_spec critic num_steps gamma 1 rewards values dones
              next_obs next_done Hr Hv Hd num_steps (le_n _)
              (Returns.zeros_like rewards) 0)
    as (adv & last & Hgae & Hlen_adv & _ & Hadv).
  { rewrite ReturnsFacts.length_zeros_like. exact Hr. }
  destruct (ReturnsFacts.return_loop_spec critic num_steps gamma rewards values dones
              next_obs next_done Hr Hv Hd num_steps (le_n _)
              (Returns.zeros_like rewards))
    as (ret & Hret_run & Hlen_ret & _ & Hret).
  { rewrite ReturnsFacts.length_zeros_like. exact Hr. }
  assert (Hret' : forall t, (t < num_steps)%nat ->
            ret !!! t
            = rewards !!! t
              + gamma * Returns.nextnonterminal num_steps dones next_done t
                * Returns.nextvalues critic num_steps next_obs ret t).
  { intros t Ht. rewrite (Hret t Ht).
    case_bool_decide as Hc; [|reflexivity].
    unfold Returns.nextvalues. rewrite bool_decide_eq_true_2 by lia.
    reflexivity. }
  exists adv, (zip_with Rplus adv values), (zip_with Rminus ret values), ret.
  unfold Returns.advantages_and_returns. rewrite Hgae, Hret_run. simpl.
  split; [reflexivity|]. split; [reflexivity|].
  assert (Hsame : zip_with Rplus adv values = ret).
  { apply (list_eq_same_length _ _ num_steps); [exact Hlen_ret | |].
    - rewrite length_zip_with_l_eq by congruence. exact Hlen_adv.
    - intros i x y Hi Hx Hy.
      apply lookup_zip_with_Some in Hx as (a & v & -> & Ha & Hvi).
      apply list_lookup_total_correct in Ha, Hvi, Hy. subst a v y.
      apply (ReturnsFacts.filled_arrays_agree critic num_steps gamma 1 rewards values dones
               next_obs next_done Hr Hv Hd adv ret eq_refl)
        with (k := (num_steps - 1 - i)%nat); [| exact Hret' | lia | exact Hi].
      intros t Ht. rewrite (Hadv t Ht). reflexivity. }
  split; [exact Hsame|].
  intros Hzero. rewrite Hsame.
  apply (list_eq_same_length _ _ num_steps);
    [rewrite length_fmap, length_seq; reflexivity | exact Hlen_ret |].
  intros i x y Hi Hx Hy.
  rewrite list_lookup_fmap, lookup_seq_lt in Hy by exact Hi.
  simpl in Hy. injection Hy as <-.
  apply list_lookup_total_correct in Hx. subst x.
  apply (ReturnsFacts.filled_array_monte_carlo critic num_steps gamma rewards values dones
           next_obs next_done Hr Hv Hd ret)
    with (k := (num_steps - 1 - i)%nat); [| exact Hret' | lia | exact Hi].
  rewrite Hzero. ring.
Qed.

(** ** Advantages and returns on float32 tensors *)

Module Returns32Facts.
Import Float32 Returns32.

Section Rollout.

Context {Obs : Type}.
Variable critic : Obs -> spec_float.
Variable num_steps : nat.
Variable gamma gae_lambda : spec_float.
Variable rewards values dones : vec32.
Variable next_obs : Obs.
Variable next_done : spec_float.

Hypothesis rewards_rows : length rewards = num_steps.
Hypothesis values_rows : length values = num_steps.
Hypothesis dones_rows : length dones = num_steps.

Local Abbreviation nn := (nextnonterminal num_steps dones next_done).
Local Abbreviation nv := (nextvalues critic num_steps next_obs).
Local Abbreviation next := (next_of critic num_steps dones next_obs next_done).
Local Abbreviation gae_step :=
  (gae_body critic num_steps gamma gae_lambda rewards values dones next_obs next_done).
Local Abbreviation return_step :=
  (return_body critic num_steps gamma rewards dones next_obs next_done).
Local Abbreviation delta :=
  (td_residual critic num_steps gamma rewards values dones next_obs next_done).

(** The discount of the advantage recursion, [gamma * gae_lambda] as a
    float32 number. *)
Local Abbreviation discount := (of_float64 (Float64.mul gamma gae_lambda)).

Lemma next_of_inside32 (source : vec32) (t : nat) :
  length source = num_steps -> (t < num_steps)%nat ->
  next source t = Some (nn t, nv source t).
Proof.
  intros Hs Ht. unfold next_of, nextnonterminal, nextvalues.
  case_bool_decide; [reflexivity|].
  rewrite (list_lookup_lookup_total_lt dones (t + 1)) by lia.
  rewrite (list_lookup_lookup_total_lt source (t + 1)) by lia.
  reflexivity.
Qed.

Lemma gae_body_inside32 (t : nat) (advantages : vec32) (lastgaelam : spec_float) :
  (t < num_steps)%nat ->
  gae_step t (advantages, lastgaelam)
  = Some (<[t := add (delta t) (mul (mul discount (nn t)) lastgaelam)]> advantages,
          add (delta t) (mul (mul discount (nn t)) lastgaelam)).
Proof.
  intros Ht. unfold gae_body, td_residual.
  rewrite next_of_inside32 by (assumption || lia). cbn [mbind option_bind].
  rewrite (list_lookup_lookup_total_lt rewards t) by lia.
  rewrite (list_lookup_lookup_total_lt values t) by lia.
  reflexivity.
Qed.

Lemma return_body_inside32 (t : nat) (returns : vec32) :
  length returns = num_steps -> (t < num_steps)%nat ->
  return_step t returns
  = Some (<[t := add (rewards !!! t)
                     (mul (mul (of_float64 gamma) (nn t)) (nv returns t))]> returns).
Proof.
  intros Hr Ht. unfold return_body.
  rewrite next_of_inside32 by (assumption || lia). cbn [mbind option_bind].
  rewrite (list_lookup_lookup_total_lt rewards t) by lia.
  reflexivity.
Qed.

(** The GAE loop from step [n - 1] down to 0, as in the exact reading:
    every entry below [n] is filled from the residual of its step and
    the advantage of the step after it, each operation rounded. *)
Lemma gae_loop_spec32 (n : nat) :
  (n <= num_steps)%nat ->
  forall (advantages : vec32) (lastgaelam : spec_float),
    length advantages = num_steps ->
    exists advantages' lastgaelam',
      Returns.reversed_range gae_step n (advantages, lastgaelam)
      = Some (advantages', lastgaelam')
      /\ length advantages' = num_steps
      /\ (forall t, (n <= t)%nat -> advantages' !!! t = advantages !!! t)
      /\ (forall t, (t < n)%nat ->
            advantages' !!! t
            = add (delta t)
                  (mul (mul discount (nn t))
                       (if bool_decide (S t = n) then lastgaelam
                        else advantages' !!! (S t)))).
Proof.
  induction n as [|t IH]; intros Hn advantages lastgaelam Hlen.
  - exists advantages, lastgaelam. cbn [Returns.reversed_range].
    repeat split; auto. intros t Ht. lia.
  - cbn [Returns.reversed_range]. rewrite gae_body_inside32 by lia.
    cbn [mbind option_bind].
    set (A := add (delta t) (mul (mul discount (nn t)) lastgaelam)).
    destruct (IH ltac:(lia) (<[t := A]> advantages) A) as
      (adv' & last' & Hrun & Hlen' & Hkeep & Hfill).
    { rewrite length_insert. exact Hlen. }
    exists adv', last'. split; [exact Hrun|]. split; [exact Hlen'|].
    assert (Ht : adv' !!! t = A).
    { rewrite Hkeep by lia. apply list_lookup_total_insert_eq. lia. }
    split.
    + intros t' Ht'. rewrite Hkeep by lia.
      apply list_lookup_total_insert_ne. lia.
    + intros t' Ht'. destruct (decide (t' = t)) as [-> | Hne].
      * rewrite bool_decide_eq_true_2 by reflexivity. exact Ht.
      * rewrite Hfill by lia.
        rewrite (bool_decide_eq_false_2 (S t' = S t)) by lia.
        case_bool_decide as Hc; [|reflexivity].
        rewrite Hc, Ht. reflexivity.
Qed.

Lemma return_loop_spec32 (n : nat) :
  (n <= num_steps)%nat ->
  forall (returns : vec32),
    length returns = num_steps ->
    exists returns',
      Returns.reversed_range return_step n returns = Some returns'
      /\ length returns' = num_steps
      /\ (forall t, (n <= t)%nat -> returns' !!! t = returns !!! t)
      /\ (forall t, (t < n)%nat ->
            returns' !!! t
            = add (rewards !!! t)
                  (mul (mul (of_float64 gamma) (nn t))
                       (if bool_decide (S t = n) then nv returns t
                        else nv returns' t))).
Proof.
  induction n as [|t IH]; intros Hn returns Hlen.
  - exists returns. cbn [Returns.reversed_range]. repeat split; auto. intros t Ht. lia.
  - cbn [Returns.reversed_range]. rewrite return_body_inside32 by (assumption || lia).
    cbn [mbind option_bind].
    set (G := add (rewards !!! t) (mul (mul (of_float64 gamma) (nn t)) (nv returns t))).
    destruct (IH ltac:(lia) (<[t := G]> returns)) as (ret' & Hrun & Hlen' & Hkeep & Hfill).
    { rewrite length_insert. exact Hlen. }
    exists ret'. split; [exact Hrun|]. split; [exact Hlen'|].
    split.
    + intros t' Ht'. rewrite Hkeep by lia.
      apply list_lookup_total_insert_ne. lia.
    + intros t' Ht'. destruct (decide (t' = t)) as [-> | Hne].
      * rewrite bool_decide_eq_true_2 by reflexivity.
        rewrite Hkeep by lia. apply list_lookup_total_insert_eq. lia.
      * rewrite Hfill by lia.
        rewrite (bool_decide_eq_false_2 (S t' = S t)) by lia.
        case_bool_decide as Hc; [|reflexivity].
        f_equal. f_equal. unfold nextvalues.
        case_bool_decide; [reflexivity|].
        rewrite Hkeep by lia. reflexivity.
Qed.

Lemma length_zeros_like32 (l : vec32) : length (zeros_like l) = length l.
Proof. unfold zeros_like. apply length_fmap. Qed.

Lemma lookup_total_zip_with32 (f : spec_float -> spec_float -> spec_float)
      (l k : vec32) (i : nat) :
  (i < length l)%nat -> (i < length k)%nat ->
  zip_with f l k !!! i = f (l !!! i) (k !!! i).
Proof.
  intros Hl Hk. apply list_lookup_total_correct.
  rewrite lookup_zip_with.
  rewrite (list_lookup_lookup_total_lt l i Hl), (list_lookup_lookup_total_lt k i Hk).
  reflexivity.
Qed.

(** Both branches on buffers of [num_steps] entries: what each entry
    of the results is. *)
Lemma branches_spec :
  exists advantages returns advantages' returns',
    advantages_and_returns critic num_steps gamma gae_lambda rewards values dones
      next_obs next_done true = Some (advantages, returns)
    /\ advantages_and_returns critic num_steps gamma gae_lambda rewards values dones
         next_obs next_done false = Some (advantages', returns')
    /\ length returns = num_steps
    /\ length returns' = num_steps
    /\ forall t, (t < num_steps)%nat ->
         returns !!! t = add (advantages !!! t) (values !!! t)
         /\ advantages !!! t
            = add (delta t)
                  (mul (mul discount (nn t))
                       (if bool_decide (S t = num_steps) then zero
                        else advantages !!! (S t)))
         /\ returns' !!! t
            = add (rewards !!! t) (mul (mul (of_float64 gamma) (nn t)) (nv returns' t)).
Proof.
  destruct (gae_loop_spec32 num_steps (le_n _) (zeros_like rewards) zero)
    as (adv & last & Hgae & Hlen_adv & _ & Hadv).
  { rewrite length_zeros_like32. exact rewards_rows. }
  destruct (return_loop_spec32 num_steps (le_n _) (zeros_like rewards))
    as (ret & Hret_run & Hlen_ret & _ & Hret).
  { rewrite length_zeros_like32. exact rewards_rows. }
  exists adv, (vadd adv values), (vsub ret values), ret.
  unfold advantages_and_returns. rewrite Hgae, Hret_run. cbn [mbind option_bind].
  rewrite !bool_decide_eq_true_2 by congruence.
  split; [reflexivity|]. split; [reflexivity|].
  split; [unfold vadd; rewrite length_zip_with; lia|]. split; [exact Hlen_ret|].
  intros t Ht. split; [|split].
  - unfold vadd. apply lookup_total_zip_with32; lia.
  - apply Hadv, Ht.
  - rewrite (Hret t Ht). case_bool_decide as Hc; [|reflexivity].
    unfold nextvalues. rewrite bool_decide_eq_true_2 by lia. reflexivity.
Qed.

End Rollout.

End Returns32Facts.

(** C3.  The two branches with [gae_lambda = 1].  On float32 tensors,
    for buffers of [num_steps] entries both branches return
    [num_steps] entries; the GAE branch returns
    [advantages[t] + values[t]], the advantage being the TD residual
    [rewards[t] + gamma * nextvalues * nextnonterminal - values[t]] plus
    the discounted advantage of the step after, and the branch without
    GAE returns [rewards[t] + gamma * nextnonterminal * next_return],
    every operation rounded.  In the exact reading the two returns are
    equal for every rollout and every bootstrap value, and when the
    critic's next value is zero both are the discounted Monte-Carlo
    returns. *)
Theorem gae_lambda_one_matches_plain_returns
        {Obs : Type} (critic32 : Obs -> spec_float) (num_steps : nat)
        (gamma32 : spec_float) (rewards32 values32 dones32 : Float32.vec32)
        (next_obs : Obs) (next_done32 : spec_float) :
  length rewards32 = num_steps ->
  length values32 = num_steps ->
  length dones32 = num_steps ->
  (exists advantages returns advantages' returns',
      Returns32.advantages_and_returns critic32 num_steps gamma32 (Float64.of_Z 1)
        rewards32 values32 dones32 next_obs next_done32 true = Some (advantages, returns)
      /\ Returns32.advantages_and_returns critic32 num_steps gamma32 (Float64.of_Z 1)
           rewards32 values32 dones32 next_obs next_done32 false
         = Some (advantages', returns')
      /\ length returns = num_steps
      /\ length returns' = num_steps
      /\ forall t, (t < num_steps)%nat ->
           returns !!! t = Float32.add (advantages !!! t) (values32 !!! t)
           /\ advantages !!! t
              = Float32.add
                  (Returns32.td_residual critic32 num_steps gamma32 rewards32 values32
                     dones32 next_obs next_done32 t)
                  (Float32.mul
                     (Float32.mul
                        (Float32.of_float64 (Float64.mul gamma32 (Float64.of_Z 1)))
                        (Returns32.nextnonterminal num_steps dones32 next_done32 t))
                     (if bool_decide (S t = num_steps) then Float32.zero
                      else advantages !!! (S t)))
           /\ returns' !!! t
              = Float32.add (rewards32 !!! t)
                  (Float32.mul
                     (Float32.mul (Float32.of_float64 gamma32)
                        (Returns32.nextnonterminal num_steps dones32 next_done32 t))
                     (Returns32.nextvalues critic32 num_steps next_obs returns' t)))
  /\ (forall (critic : Obs -> R) (gamma gae_lambda : R)
             (rewards values dones : list R) (next_done : R),
         length rewards = num_steps ->
         length values = num_steps ->
         length dones = num_steps ->
         exists advantages returns advantages' returns',
           Returns.advantages_and_returns critic num_steps gamma 1
             rewards values dones next_obs next_done true = Some (advantages, returns)
           /\ Returns.advantages_and_returns critic num_steps gamma gae_lambda
                rewards values dones next_obs next_done false
              = Some (advantages', returns')
           /\ returns = returns'
           /\ (critic next_obs = 0 ->
               returns
               = Returns.monte_carlo_return gamma num_steps rewards dones
                   <$> seq 0 num_steps)).
Proof.
  intros Hr Hv Hd. split.
  - exact (Returns32Facts.branches_spec critic32 num_steps gamma32 (Float64.of_Z 1)
             rewards32 values32 dones32 next_obs next_done32 Hr Hv Hd).
  - intros critic gamma gae_lambda rewards values dones next_done Hr' Hv' Hd'.
    exact (exact_gae_lambda_one critic num_steps gamma gae_lambda rewards values dones
             next_obs next_done Hr' Hv' Hd').
Qed.

Lemma gae_lambda_one_matches_plain_returns_witness :
  (exists advantages returns advantages' returns',
      Returns32.advantages_and_returns (fun _ : unit => Float32.zero) 3
        (Float64.literal 99 100) (Float64.of_Z 1)
        [Float32.literal 1 10; Float32.literal 2 10; Float32.literal 3 10]
        [Float32.literal 5 1; Float32.literal 6 1; Float32.literal 7 1]
        [Float32.zero; Float32.zero; Float32.zero] tt Float32.zero true
      = Some (advantages, returns)
      /\ Returns32.advantages_and_returns (fun _ : unit => Float32.zero) 3
           (Float64.literal 99 100) (Float64.of_Z 1)
           [Float32.literal 1 10; Float32.literal 2 10; Float32.literal 3 10]
           [Float32.literal 5 1; Float32.literal 6 1; Float32.literal 7 1]
           [Float32.zero; Float32.zero; Float32.zero] tt Float32.zero false
         = Some (advantages', returns')
      /\ length returns = 3%nat
      /\ length returns' = 3%nat)
  /\ (exists advantages returns advantages' returns',
        Returns.advantages_and_returns (fun _ : unit => 0) 3 (99 / 100) 1
          [1; 2; 3] [5; 6; 7] [0; 1; 0] tt 0 true = Some (advantages, returns)
        /\ Returns.advantages_and_returns (fun _ : unit => 0) 3 (99 / 100) (95 / 100)
             [1; 2; 3] [5; 6; 7] [0; 1; 0] tt 0 false = Some (advantages', returns')
        /\ returns = returns').
Proof.
  destruct (gae_lambda_one_matches_plain_returns
              (fun _ : unit => Float32.zero) 3 (Float64.literal 99 100)
              [Float32.literal 1 10; Float32.literal 2 10; Float32.literal 3 10]
              [Float32.literal 5 1; Float32.literal 6 1; Float32.literal 7 1]
              [Float32.zero; Float32.zero; Float32.zero] tt Float32.zero
              eq_refl eq_refl eq_refl) as [Hfloat Hexact].
  split.
  - destruct Hfloat as (adv & ret & adv' & ret' & H1 & H2 & H3 & H4 & _).
    exists adv, ret, adv', ret'. auto.
  - destruct (Hexact (fun _ : unit => 0) (99 / 100) (95 / 100)
                [1; 2; 3] [5; 6; 7] [0; 1; 0] 0 eq_refl eq_refl eq_refl)
      as (adv & ret & adv' & ret' & H1 & H2 & H3 & _).
    exists adv, ret, adv', ret'. auto.
Defined.

(** C3, counterexample on float32 tensors.  For the rewards
    [0.1, 0.2, 0.3], the values [5, 6, 7], [gamma = 0.99], no done flag
    and a zero bootstrap value, the returns of the GAE branch with
    [gae_lambda = 1] and those of the branch without GAE differ at two
    of the three steps: the GAE branch subtracts [values[t]] and adds
    it back, and [(r - v) + v] rounds twice. *)
Lemma gae_lambda_one_differs_in_float32 :
  let run :=
    Returns32.advantages_and_returns (fun _ : unit => Float32.zero) 3
      (Float64.literal 99 100) (Float64.of_Z 1)
      [Float32.literal 1 10; Float32.literal 2 10; Float32.literal 3 10]
      [Float32.literal 5 1; Float32.literal 6 1; Float32.literal 7 1]
      [Float32.zero; Float32.zero; Float32.zero] tt Float32.zero in
  snd <$> run true
  = Some [S754_finite false 9932616 (-24); S754_finite false 16676560 (-25);
          S754_finite false 10066336 (-25)]
  /\ snd <$> run false
     = Some [S754_finite false 9932616 (-24); S754_finite false 16676554 (-25);
             S754_finite false 10066330 (-25)]
  /\ snd <$> run true <> snd <$> run false.
Proof.
  vm_compute. split; [reflexivity|]. split; [reflexivity|]. discriminate.
Qed.

(** C7.  In the GAE recursion the value that follows the last step of the
    rollout is the critic's value of [next_obs], masked by [next_done],
    whatever the buffer holds; the value that follows an earlier step [t]
    is [values[t+1]] masked by [dones[t+1]]. *)
Theorem final_step_bootstraps_from_critic
        {Obs : Type} (critic : Obs -> R) (num_steps : nat) (gamma gae_lambda : R)
        (rewards values dones : list R) (next_obs : Obs) (next_done : R) :
  length rewards = num_steps ->
  length values = num_steps ->
  length dones = num_steps ->
  (0 < num_steps)%nat ->
  exists advantages returns,
    Returns.advantages_and_returns critic num_steps gamma gae_lambda
      rewards values dones next_obs next_done true = Some (advantages, returns)
    /\ (forall source : list R,
          Returns.next_of critic num_steps dones next_obs next_done source (num_steps - 1)
          = Some (1 - next_done, critic next_obs))
    /\ advantages !!! (num_steps - 1)%nat
       = rewards !!! (num_steps - 1)%nat
         + gamma * critic next_obs * (1 - next_done)
         - values !!! (num_steps - 1)%nat
    /\ (forall t, (t + 1 < num_steps)%nat ->
          Returns.next_of critic num_steps dones next_obs next_done values t
          = Some (1 - dones !!! (t + 1)%nat, values !!! (t + 1)%nat)
          /\ advantages !!! t
             = rewards !!! t
               + gamma * values !!! (t + 1)%nat * (1 - dones !!! (t + 1)%nat)
               - values !!! t
               + gamma * gae_lambda * (1 - dones !!! (t + 1)%nat)
                 * advantages !!! (t + 1)%nat).
Proof.
  intros Hr Hv Hd Hpos.
  destruct (ReturnsFacts.gae_loop_spec critic num_steps gamma gae_lambda rewards values dones
              next_obs next_done Hr Hv Hd num_steps (le_n _)
              (Returns.zeros_like rewards) 0)
    as (adv & last & Hgae & Hlen_adv & _ & Hadv).
  { rewrite ReturnsFacts.length_zeros_like. exact Hr. }
  exists adv, (zip_with Rplus adv values).
  unfold Returns.advantages_and_returns. rewrite Hgae. simpl.
  split; [reflexivity|].
  split; [intros source; apply ReturnsFacts.next_of_last|].
  split.
  - rewrite Hadv by lia. rewrite bool_decide_eq_true_2 by lia.
    unfold Returns.td_residual, Returns.nextvalues, Returns.nextnonterminal,
      Returns.next_value.
    rewrite !bool_decide_eq_true_2 by reflexivity. ring.
  - intros t Ht. split.
    + rewrite (ReturnsFacts.next_of_inside critic num_steps rewards values dones
                 next_obs next_done Hr Hv Hd values t) by (assumption || lia).
      unfold Returns.nextvalues, Returns.nextnonterminal.
      rewrite !bool_decide_eq_false_2 by lia. reflexivity.
    + rewrite Hadv by lia. rewrite bool_decide_eq_false_2 by lia.
      unfold Returns.td_residual, Returns.nextvalues, Returns.nextnonterminal.
      rewrite !bool_decide_eq_false_2 by lia.
      rewrite Nat.add_1_r. reflexivity.
Qed.

Lemma final_step_bootstraps_from_critic_witness :
  exists advantages returns,
    Returns.advantages_and_returns (fun _ : unit => 4) 2 (99 / 100) (95 / 100)
      [1; 2] [5; 6] [0; 0] tt 0 true = Some (advantages, returns)
    /\ advantages !!! 1%nat = 2 + 99 / 100 * 4 * (1 - 0) - 6.
Proof.
  destruct (final_step_bootstraps_from_critic
              (fun _ : unit => 4) 2 (99 / 100) (95 / 100) [1; 2] [5; 6] [0; 0] tt 0)
    as (adv & ret & Hrun & _ & Hlast & _); [reflexivity | reflexivity | reflexivity | lia |].
  exists adv, ret. split; [exact Hrun | exact Hlast].
Defined.

(** ** The PPO update *)

Module UpdateFacts.
Import Update.

Lemma vsum_opp (l : vec) : vsum (Ropp <$> l) = - vsum l.
Proof.
  unfold vsum. induction l as [|x l IH]; [simpl; ring|].
  rewrite fmap_cons. cbn [foldr]. rewrite IH. ring.
Qed.

Lemma vmean_opp (l : vec) : vmean (Ropp <$> l) = - vmean l.
Proof. unfold vmean. rewrite vsum_opp, length_fmap. unfold Rdiv. ring. Qed.

Lemma approx_kl_same : approx_kl [0] [0] = 0.
Proof.
  unfold approx_kl, ratio, logratio, vmean, vsum, vsub. simpl.
  replace (0 - 0) with 0 by ring. rewrite exp_0. field.
Qed.

Section Epochs.

Context {Params : Type}.
Variable forward : Params -> nat -> nat -> vec * vec.
Variable optimizer_step : Params -> nat -> nat -> Params.
Variable update_epochs batch_size minibatch_size : nat.

Local Abbreviation loop target_kl :=
  (epoch_loop forward optimizer_step batch_size minibatch_size target_kl).

(** A pass over at least one minibatch binds [approx_kl]. *)
Lemma minibatches_bind (epoch : nat) (starts : list nat) (st : Params * option R) :
  starts <> [] ->
  exists p' a, minibatches forward optimizer_step epoch starts st = (p', Some a).
Proof.
  unfold minibatches. destruct starts as [|s starts _] using rev_ind; [congruence|].
  intros _. rewrite foldl_app. cbn [foldl].
  destruct (forward _ epoch s) as [newlogprob b_logprobs]. eauto.
Qed.

Lemma minibatch_starts_nonempty :
  (0 < minibatch_size)%nat -> (0 < batch_size)%nat ->
  exists starts, minibatch_starts batch_size minibatch_size = Some starts /\ starts <> [].
Proof.
  intros Hm Hb. unfold minibatch_starts.
  rewrite bool_decide_eq_false_2 by lia.
  eexists. split; [reflexivity|].
  assert (0 < (batch_size + minibatch_size - 1) / minibatch_size)%nat as Hpos
      by (apply Nat.div_str_pos; lia).
  destruct ((batch_size + minibatch_size - 1) / minibatch_size)%nat; [lia|].
  discriminate.
Qed.

(** With a positive batch and minibatch size the epoch loop returns. *)
Lemma epoch_loop_total (target_kl : option R) (n : nat) :
  (0 < minibatch_size)%nat -> (0 < batch_size)%nat ->
  forall epoch p kl trace, is_Some (loop target_kl n epoch p kl trace).
Proof.
  intros Hm Hb. destruct (minibatch_starts_nonempty Hm Hb) as (starts & Hs & Hne).
  induction n as [|n IH]; intros epoch p kl trace; cbn [epoch_loop]; [eauto|].
  rewrite Hs. cbn [mbind option_bind].
  destruct (minibatches_bind epoch starts (p, kl) Hne) as (p' & a & ->).
  destruct target_kl as [target|]; [|apply IH].
  cbn [mbind option_bind]. destruct (Rgt_dec a target); [eauto | apply IH].
Qed.

(** Without a target every epoch runs. *)
Lemma epoch_loop_no_target (n : nat) :
  forall epoch p kl trace r,
    loop None n epoch p kl trace = Some r ->
    length (kl_trace r) = (length trace + n)%nat.
Proof.
  induction n as [|n IH]; intros epoch p kl trace r; cbn [epoch_loop].
  - intros [= <-]. simpl. lia.
  - destruct (minibatch_starts _ _) as [starts|]; [|discriminate].
    cbn [mbind option_bind].
    destruct (minibatches _ _ _ _ _) as [p' kl'].
    intros Hr. apply IH in Hr. rewrite Hr, length_app. simpl. lia.
Qed.

(** With a target, an epoch that ends with [approx_kl] above it is the
    last one, and a loop that stops short stopped on such an epoch. *)
Lemma epoch_loop_target (target : R) (n : nat) :
  forall epoch p kl trace r,
    loop (Some target) n epoch p kl trace = Some r ->
    exists suffix,
      kl_trace r = trace ++ suffix
      /\ (length suffix <= n)%nat
      /\ (forall i a, suffix !! i = Some (Some a) -> a > target -> S i = length suffix)
      /\ ((length suffix < n)%nat -> exists a, last suffix = Some (Some a) /\ a > target).
Proof.
  induction n as [|n IH]; intros epoch p kl trace r; cbn [epoch_loop].
  - intros [= <-]. exists []. simpl. rewrite app_nil_r.
    repeat split; [lia | | lia]. intros i a Hi. discriminate.
  - destruct (minibatch_starts _ _) as [starts|]; [|discriminate].
    cbn [mbind option_bind].
    destruct (minibatches _ _ _ _ _) as [p' [a|]]; [|discriminate].
    cbn [mbind option_bind].
    destruct (Rgt_dec a target) as [Hgt | Hle].
    + intros [= <-]. exists [Some a]. simpl.
      split; [reflexivity|]. split; [lia|]. split.
      * intros [|i] a' Hi Ha'; [reflexivity | discriminate].
      * intros _. eauto.
    + intros Hr. apply IH in Hr as (suffix & Htr & Hlen & Hstop & Hshort).
      exists (Some a :: suffix). rewrite Htr, <- app_assoc. simpl.
      split; [reflexivity|]. split; [lia|]. split.
      * intros [|i] a' Hi Ha'; simpl in Hi.
        -- injection Hi as ->. contradiction.
        -- f_equal. eapply Hstop; eassumption.
      * intros Hlt. destruct Hshort as (a' & Hlast & Ha'); [lia|].
        exists a'. split; [|exact Ha'].
        destruct suffix; [discriminate | exact Hlast].
Qed.

End Epochs.

End UpdateFacts.

(** ** The epochs, one at a time *)

Module UnrolledFacts.
Import Update Unrolled.

Section Epochs.

Context {Params : Type}.
Variable forward : Params -> nat -> nat -> vec * vec.
Variable optimizer_step : Params -> nat -> nat -> Params.
Variable update_epochs batch_size minibatch_size : nat.

(** One pass over the minibatches steps the optimizer once per
    minibatch and leaves the estimate of the last one. *)
Lemma minibatches_unrolled (epoch : nat) (starts : list nat) (st : Params * option R) :
  minibatches forward optimizer_step epoch starts st
  = epoch_step forward optimizer_step starts epoch st.
Proof.
  unfold minibatches, epoch_step, kl_after_epoch, params_after_epoch.
  induction starts as [|start starts IH] using rev_ind.
  - destruct st. reflexivity.
  - rewrite !foldl_app. cbn [foldl]. rewrite IH. cbn [fst snd].
    rewrite last_snoc, removelast_last.
    destruct (forward _ epoch start). reflexivity.
Qed.

Lemma epochs_from_snoc (starts : list nat) (n : nat) :
  forall epoch st,
    epochs_from forward optimizer_step starts (S n) epoch st
    = epoch_step forward optimizer_step starts (epoch + n)
        (epochs_from forward optimizer_step starts n epoch st).
Proof.
  induction n as [|n IH]; intros epoch st.
  - simpl. rewrite Nat.add_0_r. reflexivity.
  - change (epochs_from forward optimizer_step starts (S (S n)) epoch st)
      with (epochs_from forward optimizer_step starts (S n) (S epoch)
              (epoch_step forward optimizer_step starts epoch st)).
    rewrite IH. replace (S epoch + n)%nat with (epoch + S n)%nat by lia. reflexivity.
Qed.

(** The loop and its unrolling agree: the parameters it returns and
    the estimates it tested are those of the epochs it ran. *)
Lemma epoch_loop_unrolled (target_kl : option R) (starts : list nat) (n : nat) :
  minibatch_starts batch_size minibatch_size = Some starts ->
  forall epoch p kl trace r,
    epoch_loop forward optimizer_step batch_size minibatch_size target_kl
      n epoch p kl trace = Some r ->
    exists m,
      (m <= n)%nat
      /\ params r = (epochs_from forward optimizer_step starts m epoch (p, kl)).1
      /\ kl_trace r
         = trace
             ++ ((fun i => (epochs_from forward optimizer_step starts (S i) epoch (p, kl)).2)
                   <$> seq 0 m).
Proof.
  intros Hs. induction n as [|n IH]; intros epoch p kl trace r; cbn [epoch_loop].
  - intros [= <-]. exists 0%nat. cbn [kl_trace params epochs_from fst seq fmap list_fmap].
    rewrite app_nil_r. auto.
  - rewrite Hs. cbn [mbind option_bind].
    rewrite minibatches_unrolled.
    pose proof (eq_refl : epochs_from forward optimizer_step starts 1 epoch (p, kl)
                          = epoch_step forward optimizer_step starts epoch (p, kl)) as H1.
    assert (HS : forall i,
               epochs_from forward optimizer_step starts (S (S i)) epoch (p, kl)
               = epochs_from forward optimizer_step starts (S i) (S epoch)
                   (epoch_step forward optimizer_step starts epoch (p, kl)))
      by reflexivity.
    destruct (epoch_step forward optimizer_step starts epoch (p, kl)) as [p' kl'] eqn:Hstep.
    assert (Hone : exists m,
               (m <= S n)%nat
               /\ p' = (epochs_from forward optimizer_step starts m epoch (p, kl)).1
               /\ trace ++ [kl']
                  = trace
                      ++ ((fun i =>
                             (epochs_from forward optimizer_step starts (S i) epoch (p, kl)).2)
                            <$> seq 0 m)).
    { exists 1%nat. rewrite H1. cbn [seq fmap list_fmap]. rewrite H1.
      split; [lia|]. split; reflexivity. }
    assert (Hmore : epoch_loop forward optimizer_step batch_size minibatch_size target_kl
                      n (S epoch) p' kl' (trace ++ [kl']) = Some r ->
                    exists m,
                      (m <= S n)%nat
                      /\ params r
                         = (epochs_from forward optimizer_step starts m epoch (p, kl)).1
                      /\ kl_trace r
                         = trace
                             ++ ((fun i =>
                                    (epochs_from forward optimizer_step starts (S i) epoch
                                       (p, kl)).2)
                                   <$> seq 0 m)).
    { intros Hr. destruct (IH _ _ _ _ _ Hr) as (m & Hm & Hp & Hkl).
      exists (S m). split; [lia|]. split.
      - rewrite Hp. destruct m as [|m]; [rewrite H1; reflexivity|].
        rewrite HS. reflexivity.
      - rewrite Hkl, <- app_assoc. f_equal.
        rewrite <- cons_seq, <- fmap_S_seq, fmap_cons, <- list_fmap_compose.
        rewrite H1. cbn [app snd]. f_equal.
        apply list_fmap_ext. intros _ i _. cbn [compose]. rewrite HS. reflexivity. }
    destruct target_kl as [target|]; [|exact Hmore].
    destruct kl' as [a|]; [|discriminate]. cbn [mbind option_bind].
    destruct (Rgt_dec a target); [|exact Hmore].
    intros [= <-]. exact Hone.
Qed.

End Epochs.

End UnrolledFacts.

(** C8.  The epoch loop against its unrolling.  The update returns for
    a positive batch and minibatch size.  The parameters it returns have
    taken one optimizer step per minibatch of every epoch that ran, and
    the value tested at the end of an epoch is the [approx_kl] of lines
    794-797 for the last minibatch of that epoch, computed from the
    forward pass at the parameters of that moment.  With a target KL
    configured, an epoch whose value is above the target is the last
    one: the remaining epochs are skipped, and an update that ran fewer
    than [update_epochs] epochs stopped for that reason.  Without a
    target all [update_epochs] epochs run. *)
Theorem target_kl_stops_epochs
        {Params : Type} (forward : Params -> nat -> nat -> vec * vec)
        (optimizer_step : Params -> nat -> nat -> Params)
        (update_epochs batch_size minibatch_size : nat) (target_kl : option R)
        (p : Params) :
  ((0 < minibatch_size)%nat -> (0 < batch_size)%nat ->
   is_Some (Update.run_epochs forward optimizer_step update_epochs batch_size
              minibatch_size target_kl p))
  /\ forall r,
      Update.run_epochs forward optimizer_step update_epochs batch_size
        minibatch_size target_kl p = Some r ->
      (Update.epochs_run r <= update_epochs)%nat
      /\ ((0 < update_epochs)%nat ->
          is_Some (Update.minibatch_starts batch_size minibatch_size))
      /\ (forall starts,
             Update.minibatch_starts batch_size minibatch_size = Some starts ->
             Update.params r
             = (Unrolled.after_epochs forward optimizer_step starts
                  (Update.epochs_run r) p).1
             /\ forall i,
                 (i < Update.epochs_run r)%nat ->
                 Update.kl_trace r !! i
                 = Some (Unrolled.after_epochs forward optimizer_step starts (S i) p).2)
      /\ (target_kl = None -> Update.epochs_run r = update_epochs)
      /\ (forall target i a,
             target_kl = Some target ->
             Update.kl_trace r !! i = Some (Some a) ->
             a > target ->
             Update.epochs_run r = S i)
      /\ (forall target,
             target_kl = Some target ->
             (Update.epochs_run r < update_epochs)%nat ->
             exists a, last (Update.kl_trace r) = Some (Some a) /\ a > target).
Proof.
  split.
  - intros Hm Hb. apply UpdateFacts.epoch_loop_total; assumption.
  - intros r Hr. unfold Update.run_epochs in Hr. unfold Update.epochs_run.
    assert (Hstarts : (0 < update_epochs)%nat ->
                      is_Some (Update.minibatch_starts batch_size minibatch_size)).
    { intros Hpos. destruct update_epochs as [|n]; [lia|].
      cbn [Update.epoch_loop] in Hr.
      destruct (Update.minibatch_starts batch_size minibatch_size); [eauto | discriminate]. }
    assert (Hunrolled : forall starts,
               Update.minibatch_starts batch_size minibatch_size = Some starts ->
               Update.params r
               = (Unrolled.after_epochs forward optimizer_step starts
                    (length (Update.kl_trace r)) p).1
               /\ forall i,
                   (i < length (Update.kl_trace r))%nat ->
                   Update.kl_trace r !! i
                   = Some (Unrolled.after_epochs forward optimizer_step starts (S i) p).2).
    { intros starts Hs.
      destruct (UnrolledFacts.epoch_loop_unrolled forward optimizer_step batch_size
                  minibatch_size target_kl starts update_epochs Hs _ _ _ _ _ Hr)
        as (m & _ & Hp & Hkl).
      rewrite app_nil_l in Hkl. rewrite Hkl, length_fmap, length_seq.
      split; [exact Hp|].
      intros i Hi. rewrite list_lookup_fmap, lookup_seq_lt by exact Hi. reflexivity. }
    destruct target_kl as [target|].
    + apply UpdateFacts.epoch_loop_target in Hr as (suffix & Htr & Hlen & Hstop & Hshort).
      rewrite app_nil_l in Htr. rewrite Htr in *.
      split; [exact Hlen|]. split; [exact Hstarts|]. split; [exact Hunrolled|].
      split; [discriminate|]. split.
      * intros target' i a [= <-] Hi Ha. symmetry. eapply Hstop; eassumption.
      * intros target' [= <-] Hlt. apply Hshort, Hlt.
    + apply UpdateFacts.epoch_loop_no_target in Hr. simpl in Hr. rewrite Hr in *.
      split; [lia|]. split; [exact Hstarts|]. split; [exact Hunrolled|].
      split; [reflexivity|]. split.
      * intros target i a Hnone. discriminate.
      * intros target Hnone. discriminate.
Qed.

Lemma target_kl_stops_epochs_witness :
  exists r,
    Update.run_epochs (fun (p : nat) (_ _ : nat) => ([0], [0])) (fun p _ _ => S p)
      3 4 2 (Some (-1)) 0%nat = Some r
    /\ Update.epochs_run r = 1%nat
    /\ Update.params r
       = (Unrolled.after_epochs (fun (p : nat) (_ _ : nat) => ([0], [0]))
            (fun p _ _ => S p) [0%nat; 2%nat] 1 0%nat).1.
Proof.
  pose proof (target_kl_stops_epochs
                (fun (p : nat) (_ _ : nat) => ([0], [0])) (fun p _ _ => S p)
                3 4 2 (Some (-1)) 0%nat) as [Htotal Hspec].
  assert (Hrun : Update.run_epochs (fun (p : nat) (_ _ : nat) => ([0], [0]))
                   (fun p _ _ => S p) 3 4 2 (Some (-1)) 0%nat
                 = Some (Update.Result 2%nat [Some (Update.approx_kl [0] [0])])).
  { unfold Update.run_epochs. cbn [Update.epoch_loop].
    change (Update.minibatch_starts 4 2) with (Some [0%nat; 2%nat]).
    cbn [mbind option_bind Update.minibatches foldl fst snd app].
    destruct (Rgt_dec (Update.approx_kl [0] [0]) (-1)) as [_ | Hn]; [reflexivity|].
    exfalso. apply Hn. rewrite UpdateFacts.approx_kl_same. lra. }
  eexists. split; [exact Hrun|].
  destruct (Hspec _ Hrun) as (_ & _ & Hunrolled & _ & Hstop & _).
  assert (Hlen : Update.epochs_run
                   (Update.Result 2%nat [Some (Update.approx_kl [0] [0])]) = 1%nat).
  { apply (Hstop (-1) 0%nat (Update.approx_kl [0] [0])); [reflexivity | reflexivity |].
    rewrite UpdateFacts.approx_kl_same. lra. }
  split; [exact Hlen|].
  destruct (Hunrolled [0%nat; 2%nat] eq_refl) as [Hp _].
  rewrite Hlen in Hp. exact Hp.
Defined.

(** C6.  With value-loss clipping, the loss of each element of the
    minibatch is the larger of its unclipped squared error
    [(newvalue - return)^2] and its clipped squared error
    [(old + clamp(newvalue - old, -clip_coef, clip_coef) - return)^2]: it
    is never below either of them. *)
Theorem clipped_value_loss_dominates
        (clip_coef : R) (newvalue b_values returns : vec) (i : nat) (m : R) :
  Update.v_loss_max clip_coef newvalue b_values returns !! i = Some m ->
  exists v old ret,
    newvalue !! i = Some v /\ b_values !! i = Some old /\ returns !! i = Some ret
    /\ Update.v_loss_unclipped newvalue returns !! i = Some ((v - ret) ^ 2)
    /\ Update.v_loss_clipped clip_coef newvalue b_values returns !! i
       = Some ((old + Update.clamp (v - old) (- clip_coef) clip_coef - ret) ^ 2)
    /\ m = Rmax ((v - ret) ^ 2)
                ((old + Update.clamp (v - old) (- clip_coef) clip_coef - ret) ^ 2)
    /\ (v - ret) ^ 2 <= m
    /\ (old + Update.clamp (v - old) (- clip_coef) clip_coef - ret) ^ 2 <= m.
Proof.
  unfold Update.v_loss_max, Update.v_loss_unclipped, Update.v_loss_clipped,
    Update.v_clipped, vadd, vsub.
  intros Hm.
  apply lookup_zip_with_Some in Hm as (u & c & -> & Hu & Hc).
  apply list_lookup_fmap_Some in Hu as (du & -> & Hu).
  apply lookup_zip_with_Some in Hu as (v & ret & -> & Hv & Hret).
  apply list_lookup_fmap_Some in Hc as (dc & -> & Hc).
  apply lookup_zip_with_Some in Hc as (vc & ret' & -> & Hvc & Hret').
  apply lookup_zip_with_Some in Hvc as (old & cl & -> & Hold & Hcl).
  apply list_lookup_fmap_Some in Hcl as (d & -> & Hd).
  apply lookup_zip_with_Some in Hd as (v' & old' & -> & Hv' & Hold').
  assert (ret' = ret) as -> by congruence.
  assert (v' = v) as -> by congruence.
  assert (old' = old) as -> by congruence.
  exists v, old, ret.
  split; [exact Hv|]. split; [exact Hold|]. split; [exact Hret|].
  split.
  { rewrite list_lookup_fmap, lookup_zip_with, Hv. simpl. rewrite Hret. reflexivity. }
  split.
  { rewrite list_lookup_fmap, lookup_zip_with, lookup_zip_with, Hold. simpl.
    rewrite list_lookup_fmap, lookup_zip_with, Hv. simpl. rewrite Hold. simpl.
    rewrite Hret. reflexivity. }
  split; [reflexivity|].
  split; [apply Rmax_l | apply Rmax_r].
Qed.

Lemma clipped_value_loss_dominates_witness :
  exists m,
    Update.v_loss_max (1 / 5) [3] [1] [2] !! 0%nat = Some m
    /\ (3 - 2) ^ 2 <= m
    /\ (1 + Update.clamp (3 - 1) (- (1 / 5)) (1 / 5) - 2) ^ 2 <= m.
Proof.
  eexists. split; [reflexivity|].
  destruct (clipped_value_loss_dominates (1 / 5) [3] [1] [2] 0%nat _ eq_refl)
    as (v & old & ret & Hv & Hold & Hret & _ & _ & _ & Hu & Hc).
  injection Hv as <-. injection Hold as <-. injection Hret as <-.
  split; [exact Hu | exact Hc].
Defined.

(** C9.  [get_action_and_value] returns an entropy exactly when gSDE is
    off: then it is the entropy of the base Normal summed over the action
    dimensions, row by row; with gSDE it is [None], and the entropy loss of
    the training loop, [-mean(-newlogprob)], is the mean of the new
    log-probabilities. *)
Theorem entropy_only_without_sde
        (actor actor_mean : vec -> vec) (critic : vec -> R) (a : Agent.t)
        (x : list vec) (action : option (list vec)) (eps : list vec)
        (newlogprob : vec) :
  (Agent.get_action_and_value actor actor_mean critic a x action eps).1.2
  = (if Agent.use_sde a then None
     else Some ((fun row => vsum (Normal.entropy <$> row.1.2))
                  <$> Agent.distribution actor actor_mean a x eps))
  /\ (is_Some (Agent.get_action_and_value actor actor_mean critic a x action eps).1.2
      <-> Agent.use_sde a = false)
  /\ Update.entropy_loss
       (Agent.get_action_and_value actor actor_mean critic a x action eps).1.2 newlogprob
     = (if Agent.use_sde a then vmean newlogprob
        else - vmean ((fun row => vsum (Normal.entropy <$> row.1.2))
                        <$> Agent.distribution actor actor_mean a x eps)).
Proof.
  unfold Agent.get_action_and_value. cbn [fst snd].
  destruct (Agent.use_sde a) eqn:Hsde.
  - split; [reflexivity|]. split.
    + split; [intros [e He]; discriminate | discriminate].
    + unfold Update.entropy_loss. rewrite UpdateFacts.vmean_opp. ring.
  - rewrite <- list_fmap_compose.
    split; [reflexivity|]. split.
    + split; [reflexivity | eauto].
    + reflexivity.
Qed.

(** ** More on the bounded-action policy *)

Module AgentFacts.
Import Agent.

(** The stable form of the tanh log-Jacobian is the naive one. *)
Lemma log_jacobian_closed_form (x : R) :
  2 * (ln 2 - x - ln (1 + exp (- 2 * x))) = ln (1 - tanh x ^ 2).
Proof.
  pose proof (exp_pos (2 * x)) as He.
  replace (- 2 * x) with (- (2 * x)) by ring.
  rewrite exp_Ropp, tanh_exp2.
  replace (1 + / exp (2 * x)) with ((exp (2 * x) + 1) * / exp (2 * x)) by (field; lra).
  replace (1 - ((exp (2 * x) - 1) / (exp (2 * x) + 1)) ^ 2)
    with ((2 * 2) * (exp (2 * x) * / ((exp (2 * x) + 1) * (exp (2 * x) + 1))))
    by (field; lra).
  assert (0 < / exp (2 * x)) by (apply Rinv_0_lt_compat; lra).
  assert (0 < / ((exp (2 * x) + 1) * (exp (2 * x) + 1)))
    by (apply Rinv_0_lt_compat; nra).
  rewrite !ln_mult, !ln_Rinv, !ln_mult, !ln_exp by (lra || nra).
  ring.
Qed.

Lemma vadd_nonneg (u v : vec) :
  Forall (Rle 0) u -> Forall (Rle 0) v -> Forall (Rle 0) (vadd u v).
Proof.
  unfold vadd. intros Hu. revert v.
  induction Hu as [|x u Hx _ IH]; intros v Hv; [constructor|].
  destruct Hv as [|y v Hy Hv]; simpl; constructor; [lra | apply IH, Hv].
Qed.

Lemma vecmat_nonneg (n : nat) (v : vec) (M : mat) :
  Forall (Rle 0) v -> Forall (Forall (Rle 0)) M -> Forall (Rle 0) (vecmat n v M).
Proof.
  unfold vecmat. intros Hv. revert M.
  induction Hv as [|c v Hc _ IH]; intros M HM; simpl.
  - apply Forall_replicate. lra.
  - destruct HM as [|row M Hrow HM]; simpl.
    + apply Forall_replicate. lra.
    + apply vadd_nonneg; [|apply IH, HM].
      unfold vscale. apply Forall_fmap. eapply Forall_impl; [exact Hrow|].
      intros x Hx. simpl. nra.
Qed.

Lemma squares_nonneg (v : vec) : Forall (Rle 0) ((fun y => y ^ 2) <$> v).
Proof. apply Forall_fmap, Forall_forall. intros x _. simpl. nra. Qed.

End AgentFacts.

(** X4.  The log-probability of [get_action_and_value] subtracts the
    log-determinant of the tanh Jacobian: its closed form
    [2 * (ln 2 - g - ln (1 + exp (-2 g)))] is [ln (1 - tanh(g)^2)]. *)
Theorem log_prob_subtracts_tanh_jacobian (mean scale g : vec) :
  Agent.log_prob mean scale g
  = zip_with Rminus
      (zip_with (fun ms x => Normal.log_prob ms.1 ms.2 x) (zip mean scale) g)
      ((fun x => ln (1 - tanh x ^ 2)) <$> g).
Proof.
  unfold Agent.log_prob. f_equal.
  apply list_fmap_ext. intros _ x _. apply AgentFacts.log_jacobian_closed_form.
Qed.

(** X6.  With gSDE every scale handed to [Normal] is at least
    [sqrt EPSILON], hence positive: the variance is a sum of squares. *)
Theorem sde_scale_positive
        (actor actor_mean : vec -> vec) (a : Agent.t) (x eps : list vec)
        (mean scale sample : vec) (s : R) :
  Agent.use_sde a = true ->
  (mean, scale, sample) ∈ Agent.distribution actor actor_mean a x eps ->
  s ∈ scale ->
  0 < sqrt EPSILON <= s.
Proof.
  unfold Agent.use_sde, Agent.distribution.
  destruct (Agent.noise a) as [? | log_std emat emats]; [discriminate|].
  intros _ Hrow Hs.
  pose proof EPSILON_bounds as He.
  split; [apply sqrt_lt_R0; lra|].
  apply elem_of_zip_l, elem_of_zip_r in Hrow.
  apply list_elem_of_fmap in Hrow as (var & -> & Hvar).
  apply list_elem_of_fmap in Hs as (v & -> & Hv).
  apply list_elem_of_fmap in Hvar as (l & -> & _).
  apply sqrt_le_1_alt.
  assert (0 <= v); [|lra].
  eapply Forall_forall; [|exact Hv].
  apply AgentFacts.vecmat_nonneg; [apply AgentFacts.squares_nonneg|].
  apply Forall_fmap, Forall_forall. intros row _. apply AgentFacts.squares_nonneg.
Qed.

Lemma sde_scale_positive_witness :
  0 < sqrt EPSILON <= sqrt (1 ^ 2 * Agent.sde_std 0 ^ 2 + 0 + EPSILON).
Proof.
  eapply (sde_scale_positive
            (fun _ => [1]) (fun _ => [0])
            (Agent.mk 1 [-1] [1] [1] [0] (Agent.StateDependent [[0]] [[0]] []))
            [[]] [] _ _ _ (sqrt (1 ^ 2 * Agent.sde_std 0 ^ 2 + 0 + EPSILON))).
  - reflexivity.
  - simpl. left.
  - left.
Defined.


(** ** More on the sub-cycled interpolation *)

Module SubcycleMoreFacts.
Import Subcycle.

Section Env.

Context {Env Obs : Type}.
Variable env_step : Env -> vec -> Env * step_out Obs.

(** What the loop leaves, in every mode: the calls it added, the counter,
    and how it ended. *)
Lemma loop_shape (rel : bool) n c e prev action hist r :
  subcycle_loop env_step rel n c e prev action hist = Some r ->
  exists new,
    calls r = hist ++ new
    /\ subcycle_counter r = (c + length new)%nat
    /\ (length new <= n)%nat
    /\ (prev_action r = None ->
        exists call, last new = Some call /\ done0 call = Some true)
    /\ (forall p', prev_action r = Some p' ->
          length new = n
          /\ p' = default prev (last new.*1)
          /\ Forall (fun call => done0 call = Some false) new).
Proof.
  revert c e prev hist. induction n as [|n IH]; intros c e prev hist; simpl.
  - intros [= <-]. exists []. simpl. rewrite app_nil_r.
    split; [reflexivity|]. split; [lia|]. split; [lia|]. split; [discriminate|].
    intros p' [= <-]. split; [reflexivity|]. split; [reflexivity | constructor].
  - destruct (env_step e _) as [e' out] eqn:Hstep.
    destruct (done out !! 0%nat) as [[|]|] eqn:Hd; try discriminate.
    + intros [= <-]. eexists [_]. simpl.
      split; [reflexivity|]. split; [lia|]. split; [lia|]. split.
      * intros _. eexists. split; [reflexivity | exact Hd].
      * intros p' Hp. discriminate.
    + intros Hr. apply IH in Hr as (new & Hcalls & Hcount & Hlen & Hnone & Hsome).
      eexists (_ :: new). rewrite Hcalls, <- app_assoc. simpl.
      split; [reflexivity|]. split; [lia|]. split; [lia|]. split.
      * intros Hp. destruct (Hnone Hp) as (call & Hlast & Hcall).
        exists call. split; [|exact Hcall].
        destruct new; [discriminate | exact Hlast].
      * intros p' Hp. destruct (Hsome p' Hp) as (Hl & Hp' & Hall).
        split; [lia|]. split.
        -- rewrite Hp'. symmetry. apply SubcycleFacts.default_last_cons.
        -- constructor; [exact Hd | exact Hall].
Qed.

End Env.

End SubcycleMoreFacts.

(** X11.  In every mode a macro-step makes at least one and at most 50
    calls to the environment, and the counter counts them.  It leaves the
    previous action undefined exactly when its last call reported
    [done[0]]; otherwise it made all 50 calls and keeps the action of the
    last one. *)
Theorem macro_step_call_count
        {Env Obs : Type} (env_step : Env -> vec -> Env * Subcycle.step_out Obs)
        (rel : bool) (e : Env) (prev_action : option vec) (action : vec)
        (r : Subcycle.result Env Obs) :
  Subcycle.macro_step env_step rel e prev_action action = Some r ->
  (1 <= length (Subcycle.calls r) <= Subcycle.subcycle_max)%nat
  /\ Subcycle.subcycle_counter r = length (Subcycle.calls r)
  /\ exists call,
      last (Subcycle.calls r) = Some call
      /\ match Subcycle.prev_action r with
         | None => Subcycle.done0 call = Some true
         | Some p' =>
             Subcycle.done0 call = Some false
             /\ p' = call.1
             /\ length (Subcycle.calls r) = Subcycle.subcycle_max
         end.
Proof.
  intros Hrun. unfold Subcycle.macro_step in Hrun.
  apply SubcycleMoreFacts.loop_shape in Hrun
    as (new & Hcalls & Hcount & Hlen & Hnone & Hsome).
  rewrite app_nil_l in Hcalls. rewrite Hcalls. simpl in Hcount.
  destruct (Subcycle.prev_action r) as [p'|] eqn:Hp.
  - destruct (Hsome p' eq_refl) as (Hfull & Hp' & Hall).
    split; [rewrite Hfull; unfold Subcycle.subcycle_max; lia|].
    split; [exact Hcount|].
    destruct (last new) as [call|] eqn:Hlast.
    + exists call. split; [reflexivity|].
      split; [|split; [|exact Hfull]].
      * apply last_Some in Hlast as [l' ->].
        rewrite Forall_app, Forall_singleton in Hall. apply Hall.
      * rewrite Hp', fmap_last, Hlast. reflexivity.
    + apply last_None in Hlast. rewrite Hlast in Hfull. discriminate.
  - destruct (Hnone eq_refl) as (call & Hlast & Hcall).
    split.
    + split; [|exact Hlen].
      destruct new; [discriminate | simpl; lia].
    + split; [exact Hcount|]. exists call. split; [exact Hlast | exact Hcall].
Qed.

Lemma macro_step_call_count_witness :
  exists r,
    Subcycle.macro_step Subcycle.Scenario.done_at_tenth true 0%nat None [1] = Some r
    /\ Subcycle.subcycle_counter r = length (Subcycle.calls r)
    /\ (1 <= length (Subcycle.calls r) <= Subcycle.subcycle_max)%nat.
Proof.
  edestruct (SubcycleFacts.loop_break Subcycle.Scenario.done_at_tenth true
               Subcycle.subcycle_max 0 0%nat (Subcycle.init_prev_action None [1]) [1] [] 9)
    as [e' Hrun].
  - reflexivity.
  - reflexivity.
  - intros j call' Hj.
    do 9 (destruct j as [|j]; [intros [= <-]; reflexivity|]).
    lia.
  - eexists. split; [exact Hrun|].
    destruct (macro_step_call_count Subcycle.Scenario.done_at_tenth true 0%nat None [1]
                _ Hrun) as (Hlen & Hcount & _).
    split; [exact Hcount | exact Hlen].
Defined.

(** ** More on advantages and returns *)

Module ReturnsMoreFacts.
Import Returns.

(** The first iteration of either loop reads [rewards[num_steps - 1]]. *)
Lemma reversed_range_first_fails {S : Type} (body : nat -> S -> option S) (n : nat) (st : S) :
  body n st = None -> reversed_range body (Datatypes.S n) st = None.
Proof. intros H. cbn [reversed_range]. rewrite H. reflexivity. Qed.

End ReturnsMoreFacts.

(** X13.  With [gae_lambda = 0] the advantages of the GAE branch are the
    one-step TD residuals
    [rewards[t] + gamma * nextvalues * nextnonterminal - values[t]]. *)
Theorem gae_lambda_zero_is_td_residual
        {Obs : Type} (critic : Obs -> R) (num_steps : nat) (gamma : R)
        (rewards values dones : list R) (next_obs : Obs) (next_done : R) :
  length rewards = num_steps ->
  length values = num_steps ->
  length dones = num_steps ->
  exists advantages returns,
    Returns.advantages_and_returns critic num_steps gamma 0
      rewards values dones next_obs next_done true = Some (advantages, returns)
    /\ forall t, (t < num_steps)%nat ->
         advantages !!! t
         = Returns.td_residual critic num_steps gamma rewards values dones
             next_obs next_done t.
Proof.
  intros Hr Hv Hd. unfold Returns.advantages_and_returns.
  destruct (ReturnsFacts.gae_loop_spec critic num_steps gamma 0 rewards values
              dones next_obs next_done Hr Hv Hd num_steps (le_n _)
              (Returns.zeros_like rewards) 0)
    as (adv & last & -> & Hlen & _ & Hadv).
  { rewrite ReturnsFacts.length_zeros_like. exact Hr. }
  simpl. eexists _, _. split; [reflexivity|].
  intros t Ht. rewrite (Hadv t Ht). ring.
Qed.

Lemma gae_lambda_zero_is_td_residual_witness :
  exists advantages returns,
    Returns.advantages_and_returns (fun _ : unit => 4) 2 (99 / 100) 0
      [1; 2] [5; 6] [0; 0] tt 0 true = Some (advantages, returns)
    /\ forall t, (t < 2)%nat ->
         advantages !!! t
         = Returns.td_residual (fun _ : unit => 4) 2 (99 / 100) [1; 2] [5; 6] [0; 0] tt 0 t.
Proof.
  apply (gae_lambda_zero_is_td_residual
           (fun _ : unit => 4) 2 (99 / 100) [1; 2] [5; 6] [0; 0] tt 0);
    reflexivity.
Defined.

(** X14.  Nothing crosses a trajectory boundary.  When the non-terminal
    mask of step [t] is 0 (the step after it starts a new episode), the
    advantage of the GAE branch is [rewards[t] - values[t]] and the return
    of the branch without GAE is [rewards[t]], whatever follows. *)
Theorem terminal_step_ignores_future
        {Obs : Type} (critic : Obs -> R) (num_steps : nat) (gamma gae_lambda : R)
        (rewards values dones : list R) (next_obs : Obs) (next_done : R) (t : nat) :
  length rewards = num_steps ->
  length values = num_steps ->
  length dones = num_steps ->
  (t < num_steps)%nat ->
  Returns.nextnonterminal num_steps dones next_done t = 0 ->
  exists advantages returns advantages' returns',
    Returns.advantages_and_returns critic num_steps gamma gae_lambda
      rewards values dones next_obs next_done true = Some (advantages, returns)
    /\ Returns.advantages_and_returns critic num_steps gamma gae_lambda
         rewards values dones next_obs next_done false = Some (advantages', returns')
    /\ advantages !!! t = rewards !!! t - values !!! t
    /\ returns' !!! t = rewards !!! t.
Proof.
  intros Hr Hv Hd Ht Hmask. unfold Returns.advantages_and_returns.
  destruct (ReturnsFacts.gae_loop_spec critic num_steps gamma gae_lambda rewards values
              dones next_obs next_done Hr Hv Hd num_steps (le_n _)
              (Returns.zeros_like rewards) 0)
    as (adv & last & -> & _ & _ & Hadv).
  { rewrite ReturnsFacts.length_zeros_like. exact Hr. }
  destruct (ReturnsFacts.return_loop_spec critic num_steps gamma rewards values
              dones next_obs next_done Hr Hv Hd num_steps (le_n _)
              (Returns.zeros_like rewards))
    as (ret & -> & _ & _ & Hret).
  { rewrite ReturnsFacts.length_zeros_like. exact Hr. }
  simpl. eexists _, _, _, _. split; [reflexivity|]. split; [reflexivity|]. split.
  - rewrite (Hadv t Ht). unfold Returns.td_residual. rewrite Hmask. ring.
  - rewrite (Hret t Ht), Hmask. ring.
Qed.

Lemma terminal_step_ignores_future_witness :
  exists advantages returns advantages' returns',
    Returns.advantages_and_returns (fun _ : unit => 4) 2 (99 / 100) (95 / 100)
      [1; 2] [5; 6] [0; 1] tt 0 true = Some (advantages, returns)
    /\ Returns.advantages_and_returns (fun _ : unit => 4) 2 (99 / 100) (95 / 100)
         [1; 2] [5; 6] [0; 1] tt 0 false = Some (advantages', returns')
    /\ advantages !!! 0%nat = [1; 2] !!! 0%nat - [5; 6] !!! 0%nat
    /\ returns' !!! 0%nat = [1; 2] !!! 0%nat.
Proof.
  apply (terminal_step_ignores_future
           (fun _ : unit => 4) 2 (99 / 100) (95 / 100) [1; 2] [5; 6] [0; 1] tt 0 0);
    [reflexivity | reflexivity | reflexivity | lia |].
  unfold Returns.nextnonterminal. simpl. lra.
Defined.

(** X15.  A rewards buffer with fewer than [num_steps] entries makes both
    branches raise: their first iteration reads [rewards[num_steps - 1]]. *)
Theorem short_rewards_buffer_raises
        {Obs : Type} (critic : Obs -> R) (num_steps : nat) (gamma gae_lambda : R)
        (rewards values dones : list R) (next_obs : Obs) (next_done : R) (gae : bool) :
  (length rewards < num_steps)%nat ->
  Returns.advantages_and_returns critic num_steps gamma gae_lambda
    rewards values dones next_obs next_done gae = None.
Proof.
  intros Hshort. unfold Returns.advantages_and_returns.
  destruct num_steps as [|n]; [lia|].
  assert (Hnone : rewards !! n = None) by (apply lookup_ge_None; lia).
  destruct gae.
  - rewrite ReturnsMoreFacts.reversed_range_first_fails; [reflexivity|].
    unfold Returns.gae_body, Returns.next_of.
    rewrite bool_decide_eq_true_2 by lia. simpl. rewrite Hnone. reflexivity.
  - rewrite ReturnsMoreFacts.reversed_range_first_fails; [reflexivity|].
    unfold Returns.return_body, Returns.next_of.
    rewrite bool_decide_eq_true_2 by lia. simpl. rewrite Hnone. reflexivity.
Qed.

Lemma short_rewards_buffer_raises_witness :
  Returns.advantages_and_returns (fun _ : unit => 4) 3 (99 / 100) (95 / 100)
    [1; 2] [5; 6; 7] [0; 0; 0] tt 0 true = None.
Proof.
  apply (short_rewards_buffer_raises
           (fun _ : unit => 4) 3 (99 / 100) (95 / 100) [1; 2] [5; 6; 7] [0; 0; 0] tt 0 true).
  simpl. lia.
Defined.

(** ** More on the PPO update *)

Module MeanFacts.

Lemma vsum_nonneg (l : vec) : Forall (Rle 0) l -> 0 <= vsum l.
Proof.
  unfold vsum. induction 1 as [|x l Hx _ IH]; simpl; lra.
Qed.

Lemma vsum_le (l k : vec) : Forall2 Rle l k -> vsum l <= vsum k.
Proof.
  unfold vsum. induction 1 as [|x y l k Hxy _ IH]; simpl; lra.
Qed.

Lemma INR_length_pos {A : Type} (x : A) (l : list A) : 0 < INR (length (x :: l)).
Proof. apply lt_0_INR. simpl. lia. Qed.

Lemma vmean_nil : vmean [] = 0.
Proof. unfold vmean, Rdiv. simpl. ring. Qed.

Lemma vmean_nonneg (l : vec) : Forall (Rle 0) l -> 0 <= vmean l.
Proof.
  intros Hl. destruct l as [|x l]; [rewrite vmean_nil; lra|].
  unfold vmean. apply Rmult_le_pos; [apply vsum_nonneg, Hl|].
  left. apply Rinv_0_lt_compat, INR_length_pos.
Qed.

Lemma vmean_le (l k : vec) : Forall2 Rle l k -> vmean l <= vmean k.
Proof.
  intros Hlk. pose proof (Forall2_length _ _ _ Hlk) as Hlen.
  destruct l as [|x l]; destruct k as [|y k]; try discriminate;
    [rewrite vmean_nil; lra|].
  unfold vmean. rewrite <- Hlen.
  apply Rmult_le_compat_r; [|apply vsum_le, Hlk].
  left. apply Rinv_0_lt_compat, INR_length_pos.
Qed.

Lemma vsub_diag (l : vec) : vsub l l = (fun _ => 0) <$> l.
Proof.
  unfold vsub. induction l as [|x l IH]; [reflexivity|].
  simpl. f_equal; [ring | exact IH].
Qed.

Lemma vsum_zeros {A : Type} (l : list A) : vsum ((fun _ => 0) <$> l) = 0.
Proof.
  unfold vsum. induction l as [|x l IH]; [reflexivity|].
  rewrite fmap_cons. cbn [foldr]. rewrite IH. ring.
Qed.

Lemma vmean_zeros {A : Type} (l : list A) : vmean ((fun _ => 0) <$> l) = 0.
Proof. unfold vmean, Rdiv. rewrite vsum_zeros. ring. Qed.

End MeanFacts.

Module UpdateMoreFacts.
Import Update Minibatch.


(** Consecutive slices of width [m] cover a list that [k] of them can
    hold. *)
Lemma slices_cover (m : nat) (k : nat) :
  forall l : list nat,
    (length l <= k * m)%nat ->
    concat ((fun i => mb_inds l m (i * m)) <$> seq 0 k) = l.
Proof.
  unfold mb_inds. induction k as [|k IH]; intros l Hlen.
  - simpl in *. destruct l; [reflexivity | simpl in Hlen; lia].
  - rewrite <- cons_seq, <- fmap_S_seq, fmap_cons, <- list_fmap_compose.
    cbn [concat]. rewrite Nat.mul_0_l, drop_0.
    transitivity (take m l ++ drop m l); [|apply take_drop]. f_equal.
    assert (Hrest : (length (drop m l) <= k * m)%nat) by (rewrite length_drop; lia).
    etransitivity; [|exact (IH (drop m l) Hrest)].
    f_equal. apply list_fmap_ext. intros _ i _. simpl.
    rewrite drop_drop. reflexivity.
Qed.

Lemma starts_cover (batch m : nat) :
  (0 < m)%nat -> (batch <= (batch + m - 1) / m * m)%nat.
Proof.
  intros Hm.
  pose proof (Nat.div_mod (batch + m - 1) m ltac:(lia)) as Hdm.
  pose proof (Nat.mod_upper_bound (batch + m - 1) m ltac:(lia)) as Hr.
  nia.
Qed.

End UpdateMoreFacts.



(** X17.  For an unchanged policy (new log-probabilities equal to the
    stored ones) on a minibatch that is not empty, every ratio is 1 and
    both KL estimates are 0. *)
Theorem unchanged_policy_has_zero_kl (newlogprob : vec) :
  newlogprob <> [] ->
  Forall (fun r => r = 1) (Update.ratio newlogprob newlogprob)
  /\ Update.approx_kl newlogprob newlogprob = 0
  /\ Update.old_approx_kl newlogprob newlogprob = 0.
Proof.
  intros _. split; [|split].
  - unfold Update.ratio, Update.logratio. rewrite MeanFacts.vsub_diag, <- list_fmap_compose.
    apply Forall_fmap, Forall_forall. intros x _. simpl. apply exp_0.
  - unfold Update.approx_kl, Update.ratio, Update.logratio.
    rewrite MeanFacts.vsub_diag, <- !list_fmap_compose.
    replace (vsub _ _) with ((fun _ : R => 0) <$> newlogprob);
      [apply MeanFacts.vmean_zeros|].
    unfold vsub. induction newlogprob as [|x l IH]; [reflexivity|].
    simpl. f_equal; [rewrite exp_0; ring | exact IH].
  - unfold Update.old_approx_kl, Update.logratio.
    rewrite MeanFacts.vsub_diag, <- list_fmap_compose.
    replace (_ <$> newlogprob) with ((fun _ : R => 0) <$> newlogprob);
      [apply MeanFacts.vmean_zeros|].
    apply list_fmap_ext. intros _ x _. simpl. ring.
Qed.

Lemma unchanged_policy_has_zero_kl_witness :
  Forall (fun r => r = 1) (Update.ratio [-1; -3] [-1; -3])
  /\ Update.approx_kl [-1; -3] [-1; -3] = 0
  /\ Update.old_approx_kl [-1; -3] [-1; -3] = 0.
Proof. apply (unchanged_policy_has_zero_kl [-1; -3]). discriminate. Defined.

(** X18.  The clipped policy loss is never below the unclipped surrogate
    loss [mean(-advantages * ratio)]. *)
Theorem policy_loss_at_least_unclipped (clip_coef : R) (mb_advantages ratio_ : vec) :
  vmean (vmul (Ropp <$> mb_advantages) ratio_)
  <= Update.pg_loss clip_coef mb_advantages ratio_.
Proof.
  unfold Update.pg_loss. apply MeanFacts.vmean_le.
  unfold vmul. generalize (Ropp <$> mb_advantages). intros l.
  revert ratio_. induction l as [|x l IH]; intros [|r ratio_]; simpl; constructor.
  - apply Rmax_l.
  - apply IH.
Qed.

(** X19.  Over a minibatch, the value loss with clipping is never below
    the value loss without it. *)
Theorem clipped_value_loss_at_least_unclipped
        (clip_coef : R) (newvalue b_values returns : vec) :
  length b_values = length newvalue ->
  Update.v_loss false clip_coef newvalue b_values returns
  <= Update.v_loss true clip_coef newvalue b_values returns.
Proof.
  intros Hlen. unfold Update.v_loss.
  apply Rmult_le_compat_l; [lra|]. apply MeanFacts.vmean_le.
  unfold Update.v_loss_max, Update.v_loss_unclipped, Update.v_loss_clipped,
    Update.v_clipped, vadd, vsub.
  revert b_values returns Hlen.
  induction newvalue as [|v newvalue IH]; intros [|o b_values] [|r returns] Hlen;
    simpl in *; try lia; try constructor.
  - apply Rmax_l.
  - apply IH. lia.
Qed.

Lemma clipped_value_loss_at_least_unclipped_witness :
  Update.v_loss false (1 / 5) [3; 1] [1; 1] [2; 0]
  <= Update.v_loss true (1 / 5) [3; 1] [1; 1] [2; 0].
Proof.
  apply (clipped_value_loss_at_least_unclipped (1 / 5) [3; 1] [1; 1] [2; 0]).
  reflexivity.
Defined.

(** X20.  The minibatches of an epoch partition the batch: for a positive
    minibatch size, concatenating the slices [b_inds[start:end]] over all
    the starts of [range(0, batch_size, minibatch_size)] gives [b_inds]
    back, so every sample of the shuffled batch is used exactly once per
    epoch; no slice is longer than the minibatch size. *)
Theorem minibatches_partition_batch (batch_size minibatch_size : nat) (b_inds : list nat) :
  (0 < minibatch_size)%nat ->
  length b_inds = batch_size ->
  exists starts,
    Update.minibatch_starts batch_size minibatch_size = Some starts
    /\ concat ((fun start => Minibatch.mb_inds b_inds minibatch_size start) <$> starts)
       = b_inds
    /\ Forall (fun start =>
                 (length (Minibatch.mb_inds b_inds minibatch_size start)
                  <= minibatch_size)%nat) starts.
Proof.
  intros Hm Hlen. unfold Update.minibatch_starts.
  rewrite bool_decide_eq_false_2 by lia.
  eexists. split; [reflexivity|]. split.
  - rewrite <- list_fmap_compose.
    apply UpdateMoreFacts.slices_cover.
    rewrite Hlen. apply UpdateMoreFacts.starts_cover, Hm.
  - apply Forall_forall. intros start _. unfold Minibatch.mb_inds.
    rewrite length_take. lia.
Qed.

Lemma minibatches_partition_batch_witness :
  exists starts,
    Update.minibatch_starts 5 2 = Some starts
    /\ concat ((fun start => Minibatch.mb_inds [3; 0; 4; 1; 2]%nat 2 start) <$> starts)
       = [3; 0; 4; 1; 2]%nat
    /\ Forall (fun start =>
                 (length (Minibatch.mb_inds [3; 0; 4; 1; 2]%nat 2 start) <= 2)%nat) starts.
Proof.
  apply (minibatches_partition_batch 5 2 [3; 0; 4; 1; 2]%nat); [lia | reflexivity].
Defined.

(** X21.  With the sizes of [parse_args], when [num_minibatches] divides
    the batch size an epoch has exactly [num_minibatches] minibatches,
    starting at the multiples of the minibatch size. *)
Theorem epoch_has_num_minibatches (num_envs num_steps num_minibatches q : nat) :
  (0 < num_minibatches)%nat ->
  (0 < q)%nat ->
  Minibatch.batch_size num_envs num_steps = (num_minibatches * q)%nat ->
  Minibatch.minibatch_size (Minibatch.batch_size num_envs num_steps) num_minibatches
  = Some q
  /\ Update.minibatch_starts (Minibatch.batch_size num_envs num_steps) q
     = Some ((fun i => (i * q)%nat) <$> seq 0 num_minibatches).
Proof.
  intros Hn Hq Hb. rewrite Hb.
  unfold Minibatch.minibatch_size, Update.minibatch_starts.
  rewrite !bool_decide_eq_false_2 by lia.
  split.
  - f_equal. rewrite Nat.mul_comm. apply Nat.div_mul. lia.
  - do 3 f_equal.
    replace (num_minibatches * q + q - 1)%nat with (q - 1 + num_minibatches * q)%nat by lia.
    rewrite Nat.div_add by lia. rewrite Nat.div_small by lia. reflexivity.
Qed.

Lemma epoch_has_num_minibatches_witness :
  Minibatch.minibatch_size (Minibatch.batch_size 32 80) 32 = Some 80%nat
  /\ Update.minibatch_starts (Minibatch.batch_size 32 80) 80
     = Some ((fun i => (i * 80)%nat) <$> seq 0 32).
Proof.
  apply (epoch_has_num_minibatches 32 80 32 80); [lia | lia | reflexivity].
Defined.


Module DiagnosticsFacts.
Import Diagnostics.

Lemma var_nonneg (y : vec) : 0 <= var y.
Proof.
  unfold var. apply MeanFacts.vmean_nonneg, Forall_fmap, Forall_forall.
  intros x _. cbv beta. apply pow2_ge_0.
Qed.

Lemma var_zeros {A : Type} (l : list A) : var ((fun _ => 0) <$> l) = 0.
Proof.
  unfold var. rewrite MeanFacts.vmean_zeros, <- list_fmap_compose.
  replace (_ <$> l) with ((fun _ : A => 0) <$> l); [apply MeanFacts.vmean_zeros|].
  apply list_fmap_ext. intros _ x _. simpl. ring.
Qed.

End DiagnosticsFacts.

(** X24.  The explained variance, when it is a number, is at most 1,
    and it is 1 for a value function that predicts the returns
    exactly. *)
Theorem explained_variance_at_most_one (y_pred y_true : vec) :
  (forall ev, Diagnostics.explained_var y_pred y_true = Some ev -> ev <= 1)
  /\ (forall ev, Diagnostics.explained_var y_true y_true = Some ev -> ev = 1).
Proof.
  unfold Diagnostics.explained_var. split.
  - intros ev. destruct (Req_dec_T _ 0) as [Hz | Hnz]; [discriminate|].
    intros [= <-].
    pose proof (DiagnosticsFacts.var_nonneg y_true).
    pose proof (DiagnosticsFacts.var_nonneg (vsub y_true y_pred)).
    assert (0 <= Diagnostics.var (vsub y_true y_pred) / Diagnostics.var y_true);
      [|lra].
    apply Rmult_le_pos; [assumption|]. left. apply Rinv_0_lt_compat. lra.
  - intros ev. destruct (Req_dec_T _ 0) as [Hz | _]; [discriminate|].
    intros [= <-].
    rewrite MeanFacts.vsub_diag, DiagnosticsFacts.var_zeros.
    unfold Rdiv. ring.
Qed.

(** X25.  The buffer of following observations used by the smoothness
    loss has the length of the rollout, holds [obs[t + 1]] at every step
    [t] but the last, and pairs the last step with itself; on an empty
    rollout the assignment raises. *)
Theorem next_observations_shift {A : Type} (obs : list A) :
  (Minibatch.next_observations obs = None <-> obs = [])
  /\ forall nxtobs,
      Minibatch.next_observations obs = Some nxtobs ->
      length nxtobs = length obs
      /\ (forall t, (t + 1 < length obs)%nat -> nxtobs !! t = obs !! (t + 1)%nat)
      /\ nxtobs !! (length obs - 1)%nat = obs !! (length obs - 1)%nat.
Proof.
  unfold Minibatch.next_observations. split.
  - destruct (last obs) eqn:Hlast.
    + split; [discriminate|]. intros ->. discriminate.
    + apply last_None in Hlast. split; auto.
  - intros nxtobs. destruct (last obs) as [o|] eqn:Hlast; [|discriminate].
    intros [= <-].
    assert (Hpos : (0 < length obs)%nat).
    { destruct obs; [discriminate | simpl; lia]. }
    rewrite last_lookup in Hlast.
    replace (Init.Nat.pred (length obs)) with (length obs - 1)%nat in Hlast by lia.
    split; [|split].
    + rewrite length_app, length_drop. simpl. lia.
    + intros t Ht. rewrite lookup_app_l by (rewrite length_drop; lia).
      rewrite lookup_drop. f_equal. lia.
    + rewrite lookup_app_r by (rewrite length_drop; lia).
      rewrite length_drop, Nat.sub_diag, Hlast. reflexivity.
Qed.


(** ** The wrappers *)

Module WrappersFacts.
Import Wrappers.

(** Consecutive chunks of width [k] cover a list that [n] of them hold. *)
Lemma chunks_concat {A : Type} (k n : nat) :
  forall l : list A,
    (length l <= n * k)%nat ->
    concat ((fun i => take k (drop (i * k) l)) <$> seq 0 n) = l.
Proof.
  induction n as [|n IH]; intros l Hlen.
  - simpl in *. destruct l; [reflexivity | simpl in Hlen; lia].
  - rewrite <- cons_seq, <- fmap_S_seq, fmap_cons, <- list_fmap_compose.
    cbn [concat]. rewrite Nat.mul_0_l, drop_0.
    transitivity (take k l ++ drop k l); [|apply take_drop]. f_equal.
    assert (Hrest : (length (drop k l) <= n * k)%nat) by (rewrite length_drop; lia).
    etransitivity; [|exact (IH (drop k l) Hrest)].
    f_equal. apply list_fmap_ext. intros _ i _. simpl.
    rewrite drop_drop. reflexivity.
Qed.

Lemma reshape_rows_exact (n k : nat) (flat : vec) :
  (0 < n)%nat -> length flat = (n * k)%nat ->
  reshape_rows n flat = Some ((fun i => take k (drop (i * k) flat)) <$> seq 0 n).
Proof.
  intros Hn Hlen. unfold reshape_rows. rewrite Hlen.
  rewrite bool_decide_eq_false_2.
  - rewrite (Nat.mul_comm n k), Nat.div_mul by lia. reflexivity.
  - rewrite (Nat.mul_comm n k), Nat.Div0.mod_mul. lia.
Qed.

(** A bounded queue holds the last [maxlen] entries of what was
    appended. *)
Lemma deque_append_window {A : Type} (maxlen : nat) (hist : list A) (x : A) :
  deque_append maxlen (drop (length hist - maxlen) hist) x
  = drop (length (hist ++ [x]) - maxlen) (hist ++ [x]).
Proof.
  unfold deque_append.
  rewrite <- drop_app_le by lia.
  rewrite drop_drop. f_equal.
  repeat (rewrite length_drop || rewrite length_app). simpl. lia.
Qed.

Lemma length_window {A : Type} (maxlen : nat) (hist : list A) :
  (length (drop (length hist - maxlen) hist) <= maxlen)%nat.
Proof. rewrite length_drop. lia. Qed.

Lemma head_window {A : Type} (maxlen : nat) (hist : list A) :
  (length hist <= maxlen)%nat ->
  head (drop (length hist - maxlen) hist) = head hist.
Proof.
  intros Hle. replace (length hist - maxlen)%nat with 0%nat by lia.
  rewrite drop_0. reflexivity.
Qed.

End WrappersFacts.

Module WrappersMoreFacts.
Import Wrappers.

Lemma last_drop {A : Type} (k : nat) (l : list A) :
  (k < length l)%nat -> last (drop k l) = last l.
Proof.
  intros Hk. rewrite !last_lookup, length_drop, lookup_drop. f_equal. lia.
Qed.

Lemma head_is_Some_nonempty {A : Type} (l : list A) (x : A) :
  head l = Some x -> (0 < length l)%nat.
Proof. destruct l; [discriminate | simpl; lia]. Qed.

(** Without the relative action, a run of steps keeps in the queue the
    last [deque_size] observations of the history, and every output pairs
    the oldest queued observation with the newest. *)
Lemma stacker_steps_window (inputs : list (ndarray * vec)) :
  forall (w w' : stacker) (hist : list ndarray) (outs : list ndarray),
    use_relative_action w = false ->
    obs_queue w = drop (length hist - deque_size w) hist ->
    stacker_steps w inputs = Some (w', outs) ->
    obs_queue w'
    = drop (length (hist ++ inputs.*1) - deque_size w) (hist ++ inputs.*1)
    /\ deque_size w' = deque_size w
    /\ stack_envs w' = stack_envs w
    /\ length outs = length inputs
    /\ forall i obs out,
        inputs.*1 !! i = Some obs -> outs !! i = Some out ->
        exists first_,
          head (drop (length (hist ++ take (S i) inputs.*1) - deque_size w)
                     (hist ++ take (S i) inputs.*1)) = Some first_
          /\ concatenate (if bool_decide (1 < stack_envs w)%nat then 1 else 0)%nat
                         first_ obs = Some out.
Proof.
  induction inputs as [|[observations action] inputs IH];
    intros w w' hist outs Hrel Hq Hrun.
  - simpl in Hrun. injection Hrun as <- <-. simpl. rewrite app_nil_r.
    repeat split; auto. intros i obs out Hi. discriminate.
  - cbn [stacker_steps] in Hrun.
    unfold stacker_step, wrapped_observations in Hrun. rewrite Hrel in Hrun.
    cbn [mbind option_bind] in Hrun.
    rewrite Hq, WrappersFacts.deque_append_window in Hrun.
    set (hist' := hist ++ [observations]) in *.
    set (w1 := Stacker false (stack_envs w) (deque_size w)
                       (drop (length hist' - deque_size w) hist')) in *.
    destruct (stacked w1) as [out|] eqn:Hout; [|discriminate].
    cbn [mbind option_bind] in Hrun.
    destruct (stacker_steps w1 inputs) as [[w'' outs']|] eqn:Hrest; [|discriminate].
    cbn [mbind option_bind] in Hrun. injection Hrun as <- <-.
    destruct (IH w1 w'' hist' outs' eq_refl eq_refl Hrest)
      as (Hq' & Hsize & Henvs & Hlen & Houts).
    cbn [fmap list_fmap fst] in *.
    assert (Happ : forall l : list ndarray, hist' ++ l = hist ++ observations :: l).
    { intros l. unfold hist'. rewrite <- app_assoc. reflexivity. }
    split; [rewrite Hq', Happ; reflexivity|].
    split; [exact Hsize|]. split; [exact Henvs|]. split; [simpl; lia|].
    intros [|i] obs out0 Hi Ho; simpl in Hi, Ho.
    + injection Hi as <-. injection Ho as <-.
      unfold stacked, w1 in Hout. cbn [obs_queue stack_envs] in Hout.
      destruct (head (drop (length hist' - deque_size w) hist')) as [first_|] eqn:Hhead;
        [|discriminate].
      cbn [mbind option_bind] in Hout.
      rewrite last_drop in Hout
        by (apply head_is_Some_nonempty in Hhead; rewrite length_drop in Hhead; lia).
      unfold hist' in Hout at 1. rewrite last_snoc in Hout.
      cbn [mbind option_bind] in Hout.
      exists first_. split; [|exact Hout].
      cbn [take]. exact Hhead.
    + destruct (Houts i obs out0 Hi Ho) as (first_ & Hhead & Hcat).
      exists first_. split; [|exact Hcat].
      rewrite <- Hhead. cbn [take]. rewrite <- !Happ. reflexivity.
Qed.

End WrappersMoreFacts.

(** X27.  [ClipFlowAction.action] keeps the shape of the action, puts
    every entry between its bounds, and clipping twice is clipping
    once. *)
Theorem clip_flow_action_in_bounds (action_min action_max action : vec) :
  Forall2 Rle action_min action_max ->
  length action = length action_min ->
  length (Wrappers.clip_flow_action action_min action_max action) = length action
  /\ (forall i lo hi x,
        action_min !! i = Some lo -> action_max !! i = Some hi ->
        Wrappers.clip_flow_action action_min action_max action !! i = Some x ->
        lo <= x <= hi)
  /\ Wrappers.clip_flow_action action_min action_max
       (Wrappers.clip_flow_action action_min action_max action)
     = Wrappers.clip_flow_action action_min action_max action.
Proof.
  intros Hb Hlen. pose proof (Forall2_length _ _ _ Hb) as Hmm.
  unfold Wrappers.clip_flow_action. split; [|split].
  - rewrite length_zip_with, length_zip. lia.
  - intros i lo hi x Hlo Hhi Hx.
    apply lookup_zip_with_Some in Hx as (a & [lo' hi'] & -> & Ha & Hz).
    apply lookup_zip_Some in Hz as [Hlo' Hhi'].
    assert (lo' = lo) as -> by congruence. assert (hi' = hi) as -> by congruence.
    apply clip_bounds. exact (Forall2_lookup_lr _ _ _ _ _ _ Hb Hlo Hhi).
  - clear Hlen Hmm. revert action.
    induction Hb as [|lo hi amin amax Hle _ IH]; intros [|x action]; simpl;
      try reflexivity.
    f_equal; [|apply IH].
    apply clip_inside, clip_bounds, Hle.
Qed.

Lemma clip_flow_action_in_bounds_witness :
  exists x,
    Wrappers.clip_flow_action [- 2.5e-4] [2.5e-4] [1] !! 0%nat = Some x
    /\ - 2.5e-4 <= x <= 2.5e-4.
Proof.
  eexists. split; [reflexivity|].
  destruct (clip_flow_action_in_bounds [- 2.5e-4] [2.5e-4] [1]) as (_ & Hin & _);
    [constructor; [lra | constructor] | reflexivity |].
  apply (Hin 0%nat (- 2.5e-4) 2.5e-4); reflexivity.
Defined.

(** X28.  [ObservationRewardWrapper] appends the action to the
    observation.  For a single environment a flat observation gets the
    flattened action as its tail, and a two-dimensional one raises; for
    several environments every row of the observation gets its own chunk
    of the action, the chunks making up the action, and a flat
    observation raises. *)
Theorem augment_appends_action
        (num_envs k : nat) (obs : vec) (rows : list vec) (action : vec) :
  ((num_envs <= 1)%nat ->
   Wrappers.augment num_envs (Wrappers.Flat obs) action
   = Some (Wrappers.Flat (obs ++ action))
   /\ Wrappers.augment num_envs (Wrappers.Rows rows) action = None)
  /\ ((1 < num_envs)%nat ->
      Wrappers.augment num_envs (Wrappers.Flat obs) action = None)
  /\ ((1 < num_envs)%nat ->
      length rows = num_envs ->
      length action = (num_envs * k)%nat ->
      exists rows',
        Wrappers.augment num_envs (Wrappers.Rows rows) action = Some (Wrappers.Rows rows')
        /\ length rows' = num_envs
        /\ (forall i o,
              rows !! i = Some o ->
              rows' !! i = Some (o ++ take k (drop (i * k) action)))
        /\ concat ((fun i => take k (drop (i * k) action)) <$> seq 0 num_envs) = action).
Proof.
  unfold Wrappers.augment. split; [|split].
  - intros Hn. rewrite bool_decide_eq_false_2 by lia. split; reflexivity.
  - intros Hn. rewrite bool_decide_eq_true_2 by lia.
    destruct (Wrappers.reshape_rows num_envs action); reflexivity.
  - intros Hn Hrows Hact. rewrite bool_decide_eq_true_2 by lia.
    rewrite (WrappersFacts.reshape_rows_exact num_envs k) by (lia || assumption).
    cbn [mbind option_bind Wrappers.concatenate].
    rewrite length_fmap, length_seq, Hrows, Nat.eqb_refl.
    eexists. split; [reflexivity|]. split; [|split].
    + rewrite length_zip_with, length_fmap, length_seq. lia.
    + intros i o Hi. rewrite lookup_zip_with, Hi. cbn [mbind option_bind].
      rewrite list_lookup_fmap, lookup_seq_lt
        by (apply lookup_lt_Some in Hi; lia).
      reflexivity.
    + apply WrappersFacts.chunks_concat. lia.
Qed.

(** X29.  [ObservationRewardWrapper2] without the relative action: after
    a reset and any number of steps the queue holds the last [deque_size]
    observations; and as long as fewer than [deque_size] steps were taken
    since the reset, every returned observation is the reset observation
    next to the current one. *)
Theorem stacker_pairs_oldest_with_newest
        (w w0 w' : Wrappers.stacker) (obs0 : Wrappers.ndarray) (action_dim : nat)
        (out0 : Wrappers.ndarray) (inputs : list (Wrappers.ndarray * vec))
        (outs : list Wrappers.ndarray) :
  Wrappers.use_relative_action w = false ->
  Wrappers.stacker_reset w obs0 action_dim = Some (w0, out0) ->
  Wrappers.stacker_steps w0 inputs = Some (w', outs) ->
  Wrappers.obs_queue w'
  = drop (length (obs0 :: inputs.*1) - Wrappers.deque_size w) (obs0 :: inputs.*1)
  /\ (length (Wrappers.obs_queue w') <= Wrappers.deque_size w)%nat
  /\ length outs = length inputs
  /\ Wrappers.concatenate (if bool_decide (1 < Wrappers.stack_envs w)%nat then 1 else 0)%nat
       obs0 obs0 = Some out0
  /\ ((length inputs < Wrappers.deque_size w)%nat ->
      forall i obs out,
        inputs.*1 !! i = Some obs -> outs !! i = Some out ->
        Wrappers.concatenate
          (if bool_decide (1 < Wrappers.stack_envs w)%nat then 1 else 0)%nat obs0 obs
        = Some out).
Proof.
  intros Hrel Hreset Hrun.
  unfold Wrappers.stacker_reset, Wrappers.wrapped_observations in Hreset.
  rewrite Hrel in Hreset. cbn [mbind option_bind] in Hreset.
  set (w1 := Wrappers.Stacker false (Wrappers.stack_envs w) (Wrappers.deque_size w)
               (Wrappers.deque_append (Wrappers.deque_size w) [] obs0)) in *.
  destruct (Wrappers.stacked w1) as [out|] eqn:Hout; [|discriminate].
  cbn [mbind option_bind] in Hreset. injection Hreset as <- <-.
  assert (Hq1 : Wrappers.obs_queue w1
                = drop (length [obs0] - Wrappers.deque_size w1) [obs0]) by reflexivity.
  destruct (WrappersMoreFacts.stacker_steps_window inputs w1 w' [obs0] outs
              eq_refl Hq1 Hrun) as (Hq & _ & _ & Hlen & Houts).
  cbn [Wrappers.deque_size Wrappers.stack_envs w1 app] in *.
  split; [exact Hq|]. split; [rewrite Hq, length_drop; simpl; lia|].
  split; [exact Hlen|]. split.
  - unfold Wrappers.stacked, w1 in Hout.
    cbn [Wrappers.obs_queue Wrappers.stack_envs] in Hout.
    unfold Wrappers.deque_append in Hout. cbn [app length] in Hout.
    destruct (Wrappers.deque_size w) as [|m]; [discriminate|].
    replace (1 - S m)%nat with 0%nat in Hout by lia. exact Hout.
  - intros Hfew i obs out1 Hi Ho.
    destruct (Houts i obs out1 Hi Ho) as (first_ & Hhead & Hcat).
    assert (Hi' : (i < length inputs)%nat).
    { apply lookup_lt_Some in Hi. rewrite length_fmap in Hi. exact Hi. }
    replace (length (obs0 :: take (S i) inputs.*1) - Wrappers.deque_size w)%nat
      with 0%nat in Hhead.
    2:{ cbn [length]. rewrite length_take, length_fmap. lia. }
    simpl in Hhead. injection Hhead as <-. exact Hcat.
Qed.

Lemma stacker_pairs_oldest_with_newest_witness :
  exists w0 w' out0 outs,
    Wrappers.stacker_reset (Wrappers.Stacker false 1 50 []) (Wrappers.Flat [1]) 1
    = Some (w0, out0)
    /\ Wrappers.stacker_steps w0 [(Wrappers.Flat [2], [0]); (Wrappers.Flat [3], [0])]
       = Some (w', outs)
    /\ Wrappers.obs_queue w'
       = [Wrappers.Flat [1]; Wrappers.Flat [2]; Wrappers.Flat [3]]
    /\ outs = [Wrappers.Flat [1; 2]; Wrappers.Flat [1; 3]].
Proof.
  eexists _, _, _, _.
  split; [reflexivity|]. split; [reflexivity|].
  edestruct (stacker_pairs_oldest_with_newest
               (Wrappers.Stacker false 1 50 []) _ _ (Wrappers.Flat [1]) 1 _
               [(Wrappers.Flat [2], [0]); (Wrappers.Flat [3], [0])] _
               eq_refl eq_refl eq_refl) as (Hq & _).
  split; [exact Hq | reflexivity].
Defined.

(** ** The recorder *)

Module RecorderFacts.
Import Recorder.

Section Arithmetic.

Context {F Metric : Type}.
Variable zero : F.
Variable add : F -> F -> F.
Variable quotient : F -> Z -> Metric.

(** The flags raised among [dones], from the index [i] on. *)
Lemma done_loop_accounts (context : bool) (dones : list bool) :
  forall (i count : nat) (a : episode_arrays F) (logs : list (episode_log Metric))
         (n : nat),
    length (episode_returns a) = n ->
    length (episode_lengths a) = n ->
    length (episode_returns_saved a) = n ->
    length (episode_lengths_saved a) = n ->
    (i + length dones <= n)%nat ->
    exists a' logs',
      done_loop zero quotient context i dones (count, a, logs)
      = Some ((count + length (filter (fun d => d = true) dones))%nat, a', logs')
      /\ length (episode_returns a') = n
      /\ length (episode_lengths a') = n
      /\ length (episode_returns_saved a') = n
      /\ length (episode_lengths_saved a') = n
      /\ log_episode <$> logs'
         = (log_episode <$> logs)
             ++ (if context
                 then seq count (length (filter (fun d => d = true) dones))
                 else [])
      /\ forall j,
          (j < n)%nat ->
          match (if bool_decide (i <= j)%nat then dones !! (j - i)%nat else None) with
          | Some true =>
              episode_returns a' !! j = Some zero
              /\ episode_lengths a' !! j = Some 0%Z
              /\ episode_returns_saved a' !! j = episode_returns a !! j
              /\ episode_lengths_saved a' !! j = episode_lengths a !! j
          | _ =>
              episode_returns a' !! j = episode_returns a !! j
              /\ episode_lengths a' !! j = episode_lengths a !! j
              /\ episode_returns_saved a' !! j = episode_returns_saved a !! j
              /\ episode_lengths_saved a' !! j = episode_lengths_saved a !! j
          end.
Proof.
  induction dones as [|d dones IH]; intros i count a logs n Hr Hl Hrs Hls Hin.
  - exists a, logs. simpl. rewrite Nat.add_0_r.
    split; [reflexivity|]. repeat (split; [assumption|]).
    split; [destruct context; rewrite app_nil_r; reflexivity|].
    intros j Hj. case_bool_decide; [rewrite lookup_nil|]; auto.
  - simpl in Hin. cbn [done_loop].
    destruct d.
    + unfold record_episode.
      destruct (lookup_lt_is_Some_2 (episode_returns a) i ltac:(lia)) as [ret Hret].
      destruct (lookup_lt_is_Some_2 (episode_lengths a) i ltac:(lia)) as [len Hlen].
      rewrite Hret, Hlen.
      cbn [mbind option_bind].
      match goal with
      | |- context [done_loop zero quotient context (S i) dones (?c, ?a1, ?l1)] =>
          destruct (IH (S i) c a1 l1 n)
            as (a' & logs' & Hrun & Hr' & Hl' & Hrs' & Hls' & Hlog & Hacc);
          [simpl; rewrite length_insert; assumption
          |simpl; rewrite length_insert; assumption
          |simpl; rewrite length_insert; assumption
          |simpl; rewrite length_insert; assumption
          |lia|]
      end.
      exists a', logs'. rewrite Hrun.
      rewrite filter_cons_True by reflexivity. simpl.
      split; [do 3 f_equal; lia|]. repeat (split; [assumption|]).
      split.
      { rewrite Hlog. destruct context; [|reflexivity].
        rewrite fmap_app, <- app_assoc. reflexivity. }
      intros j Hj. specialize (Hacc j Hj).
      cbn [episode_returns episode_lengths episode_returns_saved episode_lengths_saved]
        in Hacc.
      destruct (decide (j = i)) as [-> | Hne].
      * rewrite bool_decide_eq_true_2 by lia. rewrite Nat.sub_diag. simpl.
        rewrite bool_decide_eq_false_2 in Hacc by lia.
        rewrite !list_lookup_insert_eq in Hacc by lia.
        rewrite Hret, Hlen. exact Hacc.
      * rewrite !list_lookup_insert_ne in Hacc by congruence.
        destruct (decide (S i <= j)%nat) as [Hij | Hij].
        -- rewrite bool_decide_eq_true_2 in Hacc by lia.
           rewrite bool_decide_eq_true_2 by lia.
           replace (j - i)%nat with (S (j - S i)) by lia. exact Hacc.
        -- rewrite bool_decide_eq_false_2 in Hacc by lia.
           rewrite bool_decide_eq_false_2 by lia. exact Hacc.
    + cbn [mbind option_bind].
      destruct (IH (S i) count a logs n Hr Hl Hrs Hls ltac:(lia))
        as (a' & logs' & Hrun & Hr' & Hl' & Hrs' & Hls' & Hlog & Hacc).
      exists a', logs'. rewrite Hrun.
      rewrite filter_cons_False by discriminate.
      split; [reflexivity|]. do 4 (split; [assumption|]).
      split; [exact Hlog|].
      intros j Hj. specialize (Hacc j Hj).
      destruct (decide (j = i)) as [-> | Hne].
      * rewrite bool_decide_eq_true_2 by lia. rewrite Nat.sub_diag. simpl.
        rewrite bool_decide_eq_false_2 in Hacc by lia. exact Hacc.
      * destruct (decide (S i <= j)%nat) as [Hij | Hij].
        -- rewrite bool_decide_eq_true_2 in Hacc by lia.
           rewrite bool_decide_eq_true_2 by lia.
           replace (j - i)%nat with (S (j - S i)) by lia. exact Hacc.
        -- rewrite bool_decide_eq_false_2 in Hacc by lia.
           rewrite bool_decide_eq_false_2 by lia. exact Hacc.
Qed.

End Arithmetic.

End RecorderFacts.

(** X30.  [WandBRewardRecoder.step], whatever the arithmetic of the
    returns.  Before the first [reset] it raises.  Afterwards, for
    rewards and flags of [num_envs] entries: an environment whose flag
    is down has its reward added to its running return and its length
    incremented, as an [int32]; one whose flag is up has the finished
    return and length saved and both counters zeroed; the episode count
    grows by the number of raised flags, and with a tracker one line is
    logged per finished episode, numbered consecutively. *)
Theorem recorder_step_accounts
        {F Metric : Type} (zero : F) (add : F -> F -> F) (quotient : F -> Z -> Metric)
        (w : Recorder.recorder F) (a : Recorder.episode_arrays F)
        (rewards : list F) (dones : list bool) :
  Recorder.arrays w = Some a ->
  length (Recorder.episode_returns a) = Recorder.num_envs w ->
  length (Recorder.episode_lengths a) = Recorder.num_envs w ->
  length (Recorder.episode_returns_saved a) = Recorder.num_envs w ->
  length (Recorder.episode_lengths_saved a) = Recorder.num_envs w ->
  length rewards = Recorder.num_envs w ->
  length dones = Recorder.num_envs w ->
  (1 <= Recorder.num_envs w)%nat ->
  Recorder.recorder_step zero add quotient
    (Recorder.recorder_init (Recorder.num_envs w) (Recorder.wandb_context w))
    rewards dones = None
  /\ exists w' a' logs,
      Recorder.recorder_step zero add quotient w rewards dones = Some (w', logs, dones)
      /\ Recorder.arrays w' = Some a'
      /\ Recorder.episode_count w'
         = (Recorder.episode_count w + length (filter (fun d => d = true) dones))%nat
      /\ Recorder.log_episode <$> logs
         = (if Recorder.wandb_context w
            then seq (Recorder.episode_count w) (length (filter (fun d => d = true) dones))
            else [])
      /\ forall j ret len rew flag,
          Recorder.episode_returns a !! j = Some ret ->
          Recorder.episode_lengths a !! j = Some len ->
          rewards !! j = Some rew ->
          dones !! j = Some flag ->
          match flag return Prop with
          | true =>
            Recorder.episode_returns a' !! j = Some zero
            /\ Recorder.episode_lengths a' !! j = Some 0%Z
            /\ Recorder.episode_returns_saved a' !! j = Some (add ret rew)
            /\ Recorder.episode_lengths_saved a' !! j = Some (Recorder.int32 (len + 1)%Z)
          | false =>
            Recorder.episode_returns a' !! j = Some (add ret rew)
            /\ Recorder.episode_lengths a' !! j = Some (Recorder.int32 (len + 1)%Z)
            /\ Recorder.episode_returns_saved a' !! j
               = Recorder.episode_returns_saved a !! j
            /\ Recorder.episode_lengths_saved a' !! j
               = Recorder.episode_lengths_saved a !! j
          end.
Proof.
  intros Harr Hr Hl Hrs Hls Hrew Hdones Hn.
  split; [reflexivity|].
  unfold Recorder.recorder_step. rewrite Harr. cbn [mbind option_bind].
  unfold Recorder.iadd.
  rewrite (bool_decide_eq_true_2 (length rewards = length (Recorder.episode_returns a)))
    by lia.
  cbn [mbind option_bind].
  assert (Hdl : Recorder.done_list (Recorder.num_envs w) dones = Some dones).
  { unfold Recorder.done_list. case_bool_decide as H1; [|reflexivity].
    rewrite H1 in Hdones. destruct dones as [|d [|? ?]]; try discriminate. reflexivity. }
  rewrite Hdl. cbn [mbind option_bind].
  set (a1 := Recorder.EpisodeArrays
               (zip_with add (Recorder.episode_returns a) rewards)
               ((fun n => Recorder.int32 (n + 1)%Z) <$> Recorder.episode_lengths a)
               (Recorder.episode_returns_saved a) (Recorder.episode_lengths_saved a)).
  destruct (RecorderFacts.done_loop_accounts zero quotient (Recorder.wandb_context w) dones 0
              (Recorder.episode_count w) a1 [] (Recorder.num_envs w))
    as (a' & logs & Hrun & _ & _ & _ & _ & Hlog & Hacc).
  { simpl. rewrite length_zip_with. lia. }
  { simpl. rewrite length_fmap. exact Hl. }
  { exact Hrs. }
  { exact Hls. }
  { lia. }
  rewrite Hrun. cbn [mbind option_bind].
  assert (Hret : (if bool_decide (1 < Recorder.num_envs w)%nat then Some dones
                  else d ← head dones; Some [d]) = Some dones).
  { case_bool_decide as H1; [reflexivity|].
    assert (Recorder.num_envs w = 1%nat) as H2 by lia. rewrite H2 in Hdones.
    destruct dones as [|d [|? ?]]; try discriminate. reflexivity. }
  rewrite Hret. cbn [mbind option_bind].
  eexists _, a', logs. split; [reflexivity|].
  cbn [Recorder.arrays Recorder.episode_count].
  split; [reflexivity|]. split; [reflexivity|]. split; [exact Hlog|].
  intros j ret len rew flag Hjr Hjl Hjw Hjd.
  pose proof (lookup_lt_Some _ _ _ Hjd) as Hj. rewrite Hdones in Hj.
  specialize (Hacc j Hj).
  rewrite bool_decide_eq_true_2, Nat.sub_0_r, Hjd in Hacc by lia.
  cbn [Recorder.episode_returns Recorder.episode_lengths
       Recorder.episode_returns_saved Recorder.episode_lengths_saved a1] in Hacc.
  rewrite lookup_zip_with, list_lookup_fmap, Hjr, Hjl, Hjw in Hacc.
  cbn [mbind option_bind fmap option_fmap option_map] in Hacc.
  destruct flag; exact Hacc.
Qed.

Lemma recorder_step_accounts_witness :
  exists w' a' logs,
    Recorder.recorder_step Float32.zero Float32.add (fun x n => (x, n))
      (Recorder.recorder_reset Float32.zero (Recorder.recorder_init 2 true))
      [Float32.literal 1 10; Float32.literal 3 1] [false; true]
    = Some (w', logs, [false; true])
    /\ Recorder.arrays w' = Some a'
    /\ Recorder.episode_count w' = 1%nat
    /\ Recorder.log_episode <$> logs = [0%nat]
    /\ Recorder.episode_lengths a' = [1%Z; 0%Z].
Proof.
  destruct (recorder_step_accounts Float32.zero Float32.add (fun x n => (x, n))
              (Recorder.recorder_reset Float32.zero (Recorder.recorder_init 2 true))
              (Recorder.EpisodeArrays [Float32.zero; Float32.zero] [0; 0]%Z
                 [Float32.zero; Float32.zero] [0; 0]%Z)
              [Float32.literal 1 10; Float32.literal 3 1] [false; true])
    as (_ & w' & a' & logs & Hrun & Harr & Hcount & Hlog & _);
    try reflexivity; [simpl; lia|].
  exists w', a', logs. split; [exact Hrun|]. split; [exact Harr|].
  split; [exact Hcount|]. split; [exact Hlog|].
  vm_compute in Hrun. injection Hrun as <- <-. injection Harr as <-. reflexivity.
Defined.
